(** * The execution engine of the LLVM IR interpreter

    A shallow embedding of [LLVMInterpreter/Interpreter.cpp]: the two bump
    allocated memory sections, the call stack, global initialisation
    ([evaluateGlobals]), the invocation protocol ([callFunction]) and the
    basic-block dispatch loop ([runFunction]) with its PHI update step
    ([switchToNewBasicBlock]).

    The interpreter object is a record that is threaded through every
    operation.  A C++ reference to a stack frame is the index of that frame
    in the call stack.  Fatal conditions (a failed [assert], a reached
    [llvm_unreachable], a dangling reference) are results of their own.  The
    collaborators that live in other translation units ([evaluateOperand],
    [evaluateInstruction], [evaluateConstant], [callExternalFunction] and
    the data-layout size query) are section variables. *)

From Stdlib Require Import ZArith List Lia.
From stdpp Require Import base option list strings gmap fin_maps.

Local Open Scope N_scope.

(** ** Results of fallible operations *)

Inductive Failure :=
| AssertionFailure      (* a failed [assert] *)
| UnreachableExecuted   (* [llvm_unreachable] was reached *)
| InvalidReference      (* a dangling frame or block reference, [map::at] miss *)
| MemoryFault           (* access to storage that is not allocated *)
| CollaboratorFailure.  (* a fatal condition raised by a collaborator *)

Inductive result (A : Type) :=
| OK (a : A)
| Fatal (e : Failure)
| OutOfFuel.

Arguments OK {A} a.
Arguments Fatal {A} e.
Arguments OutOfFuel {A}.

Global Instance result_ret : MRet result := fun A a => OK a.

Global Instance result_bind : MBind result := fun A B k r =>
  match r with
  | OK a => k a
  | Fatal e => Fatal e
  | OutOfFuel => OutOfFuel
  end.

Global Instance result_fmap : FMap result := fun A B g r =>
  match r with
  | OK a => OK (g a)
  | Fatal e => Fatal e
  | OutOfFuel => OutOfFuel
  end.

(** [foldM step xs s] runs [step] over [xs] from left to right and stops at
    the first failure: a range-based [for] whose body may abort. *)
Fixpoint foldM {A S : Type} (step : A -> S -> result S) (xs : list A) (s : S)
  : result S :=
  match xs with
  | [] => OK s
  | x :: xs' => s' ← step x s; foldM step xs' s'
  end.

(** ** The IR, as far as the engine looks at it *)

(** Identity of an [llvm::Value] that a frame can bind (an argument or an
    instruction), of a global variable, of a function and of a basic block
    in its function's block list. *)
Abbreviation ValueId := N.
Abbreviation GlobalVarId := N.
Abbreviation FunctionId := N.
Abbreviation BlockRef := nat.

(** A [const GlobalValue*]: a global variable or a function. *)
Abbreviation GlobalValuePtr := (GlobalVarId + FunctionId)%type.

Inductive LType :=
| IntegerTy (bits : N)
| PointerTy (pointee : LType)
| ArrayTy (len : N) (elt : LType)
| VectorTy (len : N) (elt : LType)
| StructTy (id : N)
| FunctionTy (variadic : bool).

Definition isVectorTy (t : LType) : bool :=
  match t with
  | VectorTy _ _ => true
  | _ => false
  end.

(** [llvm::APInt]: a bit width and the unsigned value below [2 ^ width]. *)
Record APInt := mkAPInt { BitWidth : N; VAL : Z }.

Definition APInt_eqb (a b : APInt) : bool :=
  (BitWidth a =? BitWidth b) && (VAL a =? VAL b)%Z.

Definition getBoolValue (a : APInt) : bool := negb (VAL a =? 0)%Z.

(** [APInt::getSExtValue]: the value read as a two's complement number of
    [BitWidth] bits. *)
Definition getSExtValue (a : APInt) : Z :=
  if BitWidth a =? 0 then 0%Z
  else if Z.testbit (VAL a) (Z.of_N (BitWidth a) - 1)
       then (VAL a - 2 ^ Z.of_N (BitWidth a))%Z
       else VAL a.

(** The conversion of an [int64_t] to the 32-bit [int]. *)
Definition toInt (z : Z) : Z := ((z + 2 ^ 31) mod 2 ^ 32 - 2 ^ 31)%Z.

(** An operand: a constant, the address of a global, or a frame-bound value. *)
Inductive Value :=
| ConstantInt (c : APInt)
| UndefConstant
| GlobalRef (g : GlobalValuePtr)
| LocalValue (id : ValueId).

Inductive Opcode :=
| OpAdd | OpSub | OpMul | OpICmpEq | OpAlloca | OpLoad | OpStore | OpCall.

Inductive Instruction :=
| PHINode (id : ValueId) (incoming : list (BlockRef * Value))
| PlainInst (id : ValueId) (op : Opcode) (operands : list Value)
| BranchInst (succ0 : BlockRef) (cond : option (Value * BlockRef))
| ReturnInst (retval : option Value)
| SwitchInst (cond : Value) (defaultDest : BlockRef)
             (cases : list (APInt * BlockRef))
| UnreachableInst
| IndirectBrInst
| InvokeInst
| ResumeInst.

Definition isPHINode (i : Instruction) : bool :=
  match i with
  | PHINode _ _ => true
  | _ => false
  end.

Definition isTerminator (i : Instruction) : bool :=
  match i with
  | PHINode _ _ | PlainInst _ _ _ => false
  | _ => true
  end.

Abbreviation BasicBlock := (list Instruction).

Record Function := mkFunction {
  fnId : FunctionId;
  fnType : LType;               (* the function type *)
  fnArgs : list ValueId;        (* [arg_begin() .. arg_end()) *)
  isVarArg : bool;
  fnBlocks : list BasicBlock    (* empty for a declaration *)
}.

Definition isDeclaration (f : Function) : bool :=
  match fnBlocks f with
  | [] => true
  | _ => false
  end.

Record GlobalVariable := mkGlobalVariable {
  gvId : GlobalVarId;
  gvValueType : LType;          (* the declared type of the contents *)
  gvInitializer : option Value
}.

(** A [const GlobalValue*] argument with what is read through it. *)
Inductive GlobalValue :=
| GVariable (g : GlobalVariable)
| GFunction (f : Function).

(** [GlobalValue::getType]: a global value is the address of its storage,
    so its type is the pointer type to what it declares, for a variable and
    for a function alike; it is never the declared type itself. *)
Definition getType (gv : GlobalValue) : LType :=
  match gv with
  | GVariable g => PointerTy (gvValueType g)
  | GFunction f => PointerTy (fnType f)
  end.

Record Module := mkModule {
  globals : list GlobalVariable;
  functions : list Function
}.

(** ** Runtime values and memory *)

Abbreviation Address := N.

Inductive AddressSpace := StackSpace | GlobalSpace.

Inductive DynamicValue :=
| UndefValue
| IntValue (i : APInt)
| PointerValue (space : AddressSpace) (a : Address).

Definition isUndefValue (v : DynamicValue) : bool :=
  match v with
  | UndefValue => true
  | _ => false
  end.

Definition getAsIntValue (v : DynamicValue) : result APInt :=
  match v with
  | IntValue i => OK i
  | _ => Fatal AssertionFailure
  end.

(** Modelled from the spec: the [MemorySection] class (the bump allocator of
    section 4.1) is declared outside this translation unit.  A section is a
    high-water mark and the values written below it; [allocate] returns the
    old mark and raises it, [deallocate] lowers it by the given total,
    [clear] empties the section, and [write]/[read] are fatal at an address
    that is not below the mark. *)
Record MemorySection := mkMemorySection {
  usedSize : N;
  cells : gmap N DynamicValue
}.

Definition emptySection : MemorySection := mkMemorySection 0 ∅.

Definition allocate (size : N) (m : MemorySection) : Address * MemorySection :=
  (usedSize m, mkMemorySection (usedSize m + size) (cells m)).

Definition deallocate (size : N) (m : MemorySection) : MemorySection :=
  mkMemorySection (usedSize m - size) (cells m).

Definition clear (m : MemorySection) : MemorySection := emptySection.

Definition write (a : Address) (v : DynamicValue) (m : MemorySection)
  : result MemorySection :=
  if a <? usedSize m
  then OK (mkMemorySection (usedSize m) (<[a := v]> (cells m)))
  else Fatal MemoryFault.

Definition read (a : Address) (m : MemorySection) : result DynamicValue :=
  if a <? usedSize m
  then match cells m !! a with
       | Some v => OK v
       | None => OK UndefValue
       end
  else Fatal MemoryFault.

(** Modelled from the spec: the [StackFrame] class (section 3, Call Frame)
    is declared outside this translation unit.  A frame has its function, a
    binding table in which insertion overwrites, the variadic overflow
    sequence and the number of bytes it has claimed from the stack section. *)
Record StackFrame := mkStackFrame {
  getFunction : Function;
  bindings : gmap ValueId DynamicValue;
  varargs : list DynamicValue;
  getAllocationSize : N
}.

Definition newFrame (f : Function) : StackFrame := mkStackFrame f ∅ [] 0.

Definition insertBinding (id : ValueId) (v : DynamicValue) (fr : StackFrame)
  : StackFrame :=
  mkStackFrame (getFunction fr) (<[id := v]> (bindings fr)) (varargs fr)
               (getAllocationSize fr).

Definition insertVararg (v : DynamicValue) (fr : StackFrame) : StackFrame :=
  mkStackFrame (getFunction fr) (bindings fr) (varargs fr ++ [v])
               (getAllocationSize fr).

Definition increaseAllocationSize (size : N) (fr : StackFrame) : StackFrame :=
  mkStackFrame (getFunction fr) (bindings fr) (varargs fr)
               (getAllocationSize fr + size).

(** ** The interpreter object *)

(** The call stack is kept bottom first: [createFrame] appends, [popFrame]
    drops the last frame, and a [StackFrame&] is the frame's index. *)
Abbreviation FrameRef := nat.

Record Interpreter := mkInterpreter {
  stack : list StackFrame;
  stackMem : MemorySection;
  globalMem : MemorySection;
  globalEnv : gmap GlobalValuePtr Address;
  funPtrMap : gmap Address FunctionId
}.

Definition initialInterpreter : Interpreter :=
  mkInterpreter [] emptySection emptySection ∅ ∅.

Definition setStack (s : list StackFrame) (st : Interpreter) : Interpreter :=
  mkInterpreter s (stackMem st) (globalMem st) (globalEnv st) (funPtrMap st).

Definition setStackMem (m : MemorySection) (st : Interpreter) : Interpreter :=
  mkInterpreter (stack st) m (globalMem st) (globalEnv st) (funPtrMap st).

Definition setGlobalMem (m : MemorySection) (st : Interpreter) : Interpreter :=
  mkInterpreter (stack st) (stackMem st) m (globalEnv st) (funPtrMap st).

(** The [insert] member of a map ([std::map], [std::unordered_map] and
    [llvm::DenseMap] alike): an existing key keeps its mapped value. *)
Definition map_insert_new `{Countable K} {V : Type} (k : K) (v : V)
    (m : gmap K V) : gmap K V :=
  match m !! k with
  | Some _ => m
  | None => <[k := v]> m
  end.

Definition insertGlobalEnv (g : GlobalValuePtr) (a : Address)
    (st : Interpreter) : Interpreter :=
  mkInterpreter (stack st) (stackMem st) (globalMem st)
                (map_insert_new g a (globalEnv st)) (funPtrMap st).

Definition insertFunPtr (a : Address) (f : FunctionId) (st : Interpreter)
  : Interpreter :=
  mkInterpreter (stack st) (stackMem st) (globalMem st) (globalEnv st)
                (map_insert_new a f (funPtrMap st)).

(** Modelled from the spec: the [CallStack] class (section 3, Call Stack) is
    declared outside this translation unit: strict push and pop, and access
    to the current frame only. *)
Definition createFrame (f : Function) (st : Interpreter)
  : FrameRef * Interpreter :=
  (length (stack st), setStack (stack st ++ [newFrame f]) st).

Definition getCurrentFrame (st : Interpreter) : result StackFrame :=
  match last (stack st) with
  | Some fr => OK fr
  | None => Fatal InvalidReference
  end.

Definition popFrame (st : Interpreter) : Interpreter :=
  setStack (removelast (stack st)) st.

(** Access through a frame reference. *)
Definition getFrame (frame : FrameRef) (st : Interpreter) : result StackFrame :=
  match stack st !! frame with
  | Some fr => OK fr
  | None => Fatal InvalidReference
  end.

Definition updateFrame (frame : FrameRef) (g : StackFrame -> StackFrame)
    (st : Interpreter) : result Interpreter :=
  match stack st !! frame with
  | Some fr => OK (setStack (<[frame := g fr]> (stack st)) st)
  | None => Fatal InvalidReference
  end.

(** ** Stack memory *)

(** [Interpreter::allocateStackMem] *)
Definition allocateStackMem (frame : FrameRef) (size : N) (st : Interpreter)
  : result (Address * Interpreter) :=
  st1 ← updateFrame frame (increaseAllocationSize size) st;
  let '(a, m) := allocate size (stackMem st1) in
  OK (a, setStackMem m st1).

(** [Interpreter::popStack] *)
Definition popStack (st : Interpreter) : result Interpreter :=
  fr ← getCurrentFrame st;
  OK (popFrame (setStackMem (deallocate (getAllocationSize fr) (stackMem st)) st)).

(** ** PHI nodes and switch cases *)

(** [PHINode::getBasicBlockIndex]: the first incoming entry of the block,
    [None] for the source's [-1]. *)
Fixpoint getBasicBlockIndex (incoming : list (BlockRef * Value)) (bb : BlockRef)
  : option nat :=
  match incoming with
  | [] => None
  | (b, _) :: rest =>
      if Nat.eqb b bb then Some 0%nat else S <$> getBasicBlockIndex rest bb
  end.

Definition getIncomingValue (incoming : list (BlockRef * Value)) (idx : nat)
  : option Value :=
  snd <$> incoming !! idx.

(** The scan of [switchInst->cases()]: [destBB] starts as the default
    destination and the first equal case replaces it. *)
Fixpoint findCaseDest (condInt : APInt) (defaultDest : BlockRef)
    (cases : list (APInt * BlockRef)) : BlockRef :=
  match cases with
  | [] => defaultDest
  | (caseInt, succ) :: rest =>
      if APInt_eqb condInt caseInt then succ
      else findCaseDest condInt defaultDest rest
  end.

(** [while (isa<PHINode>(instItr)) ++instItr;] *)
Fixpoint skipPHINodes (bb : BasicBlock) : BasicBlock :=
  match bb with
  | i :: rest => if isPHINode i then skipPHINodes rest else bb
  | [] => []
  end.

(** [BasicBlock::getTerminator]: the last instruction when it is a
    terminator. *)
Definition getTerminator (bb : BasicBlock) : option Instruction :=
  match last bb with
  | Some i => if isTerminator i then Some i else None
  | None => None
  end.

(** What one iteration of the [while (true)] loop of [runFunction] ends in. *)
Inductive LoopStep :=
| Continue (curBB : BlockRef) (st : Interpreter)
| Return (retVal : DynamicValue) (st : Interpreter).

(** The signature of [callFunction], as a collaborator sees it. *)
Definition CallHook : Type :=
  Function -> list DynamicValue -> Interpreter
  -> result (DynamicValue * Interpreter).

Section Engine.

(** [DataLayout::getTypeAllocSize] *)
Variable getTypeAllocSize : LType -> N.
(** [Interpreter::evaluateConstant] *)
Variable evaluateConstant : Interpreter -> Value -> result DynamicValue.
(** [Interpreter::evaluateOperand] *)
Variable evaluateOperand :
  Interpreter -> FrameRef -> Value -> result DynamicValue.
(** [Interpreter::evaluateInstruction]; a call instruction goes back into
    [callFunction], which it receives as its first argument. *)
Variable evaluateInstruction :
  CallHook -> FrameRef -> Instruction -> Interpreter -> result Interpreter.
(** [Interpreter::callExternalFunction] *)
Variable callExternalFunction : CallHook.

(** *** Global initialisation *)

(** [Interpreter::allocateGlobalMem] *)
Definition allocateGlobalMem (gv : GlobalValue) (st : Interpreter)
  : result (Address * Interpreter) :=
  let globalType := getType gv in
  if isVectorTy globalType then Fatal UnreachableExecuted
  else
    let globalSize := getTypeAllocSize globalType in
    let '(a, m) := allocate globalSize (globalMem st) in
    OK (a, setGlobalMem m st).

(** The body of the first loop of [evaluateGlobals]. *)
Definition allocateGlobal (g : GlobalVariable) (st : Interpreter)
  : result Interpreter :=
  '(globalAddr, st1) ← allocateGlobalMem (GVariable g) st;
  OK (insertGlobalEnv (inl (gvId g)) globalAddr st1).

(** The body of the second loop. *)
Definition initializeGlobal (g : GlobalVariable) (st : Interpreter)
  : result Interpreter :=
  match globalEnv st !! inl (gvId g) with
  | None => Fatal InvalidReference
  | Some globalAddr =>
      match gvInitializer g with
      | Some init =>
          v ← evaluateConstant st init;
          m ← write globalAddr v (globalMem st);
          OK (setGlobalMem m st)
      | None => OK st
      end
  end.

(** The body of the third loop. *)
Definition registerFunction (f : Function) (st : Interpreter)
  : result Interpreter :=
  '(funAddr, st1) ← allocateGlobalMem (GFunction f) st;
  OK (insertFunPtr funAddr (fnId f)
        (insertGlobalEnv (inr (fnId f)) funAddr st1)).

(** [Interpreter::evaluateGlobals] *)
Definition evaluateGlobals (m : Module) (st : Interpreter)
  : result Interpreter :=
  let st0 := setGlobalMem (clear (globalMem st)) st in
  st1 ← foldM allocateGlobal (globals m) st0;
  st2 ← foldM initializeGlobal (globals m) st1;
  foldM registerFunction (functions m) st2.

(** *** Entering a basic block *)

(** The first loop of [switchToNewBasicBlock]: every operand is evaluated
    in the interpreter as it is on entry. *)
Fixpoint collectPhiValues (frame : FrameRef) (prevBB : BlockRef)
    (insts : BasicBlock) (st : Interpreter)
  : result (list (ValueId * DynamicValue)) :=
  match insts with
  | PHINode id incoming :: rest =>
      match getBasicBlockIndex incoming prevBB with
      | None => Fatal AssertionFailure
      | Some idx =>
          match getIncomingValue incoming idx with
          | None => Fatal InvalidReference
          | Some v =>
              incomingVal ← evaluateOperand st frame v;
              phiValueCache ← collectPhiValues frame prevBB rest st;
              OK ((id, incomingVal) :: phiValueCache)
          end
      end
  | _ => OK []
  end.

(** The second loop. *)
Definition commitPhiValues (frame : FrameRef)
    (phiValueCache : list (ValueId * DynamicValue)) (st : Interpreter)
  : result Interpreter :=
  foldM (fun updatePair =>
           updateFrame frame (insertBinding updatePair.1 updatePair.2))
        phiValueCache st.

(** The lambda [switchToNewBasicBlock] of [runFunction]; the new [curBB]
    is returned with the interpreter. *)
Definition switchToNewBasicBlock (frame : FrameRef) (f : Function)
    (curBB destBB : BlockRef) (st : Interpreter)
  : result (BlockRef * Interpreter) :=
  let prevBB := curBB in
  match fnBlocks f !! destBB with
  | None => Fatal InvalidReference
  | Some insts =>
      phiValueCache ← collectPhiValues frame prevBB insts st;
      st' ← commitPhiValues frame phiValueCache st;
      OK (destBB, st')
  end.

(** *** The execution loop *)

(** The [for] loop over the non-terminator instructions. *)
Fixpoint evaluateStraightLine (call : CallHook) (frame : FrameRef)
    (insts : list Instruction) (st : Interpreter) : result Interpreter :=
  match insts with
  | [] => OK st
  | i :: rest =>
      if isTerminator i then OK st
      else
        st1 ← evaluateInstruction call frame i st;
        evaluateStraightLine call frame rest st1
  end.

(** The [switch] on the terminator's opcode. *)
Definition dispatchTerminator (frame : FrameRef) (f : Function)
    (curBB : BlockRef) (termInst : Instruction) (st : Interpreter)
  : result LoopStep :=
  match termInst with
  | BranchInst succ0 cond =>
      destBB ← match cond with
               | None => OK succ0
               | Some (c, succ1) =>
                   condVal ← evaluateOperand st frame c;
                   condInt ← getAsIntValue condVal;
                   OK (if getBoolValue condInt then succ0 else succ1)
               end;
      '(bb, st') ← switchToNewBasicBlock frame f curBB destBB st;
      OK (Continue bb st')
  | ReturnInst retval =>
      retVal ← match retval with
               | Some value => evaluateOperand st frame value
               | None => OK UndefValue
               end;
      st' ← popStack st;
      OK (Return retVal st')
  | SwitchInst cond defaultDest cases =>
      condVal ← evaluateOperand st frame cond;
      condInt ← getAsIntValue condVal;
      let destBB := findCaseDest condInt defaultDest cases in
      '(bb, st') ← switchToNewBasicBlock frame f curBB destBB st;
      OK (Continue bb st')
  | _ => Fatal UnreachableExecuted
  end.

(** One iteration of [while (true)]. *)
Definition runBlock (call : CallHook) (frame : FrameRef) (f : Function)
    (curBB : BlockRef) (st : Interpreter) : result LoopStep :=
  match fnBlocks f !! curBB with
  | None => Fatal InvalidReference
  | Some bb =>
      st1 ← evaluateStraightLine call frame (skipPHINodes bb) st;
      match getTerminator bb with
      | None => Fatal InvalidReference
      | Some termInst => dispatchTerminator frame f curBB termInst st1
      end
  end.

Fixpoint runLoop (call : CallHook) (fuel : nat) (frame : FrameRef)
    (f : Function) (curBB : BlockRef) (st : Interpreter)
  : result (DynamicValue * Interpreter) :=
  match fuel with
  | O => OutOfFuel
  | S fuel' =>
      step ← runBlock call frame f curBB st;
      match step with
      | Continue bb st' => runLoop call fuel' frame f bb st'
      | Return retVal st' => OK (retVal, st')
      end
  end.

(** [Interpreter::runFunction]: [curBB] starts at [f->begin()]. *)
Definition runFunction (call : CallHook) (fuel : nat) (frame : FrameRef)
    (st : Interpreter) : result (DynamicValue * Interpreter) :=
  fr ← getFrame frame st;
  runLoop call fuel frame (getFunction fr) 0%nat st.

(** *** Invocation *)

(** The loop over the fixed parameters: [i] counts the arguments used. *)
Fixpoint bindFixedArgs (frame : FrameRef) (params : list ValueId) (i : nat)
    (argValues : list DynamicValue) (st : Interpreter)
  : result (nat * Interpreter) :=
  match params with
  | [] => OK (i, st)
  | itr :: rest =>
      match argValues !! i with
      | None => Fatal MemoryFault
      | Some v =>
          st1 ← updateFrame frame (insertBinding itr v) st;
          bindFixedArgs frame rest (S i) argValues st1
      end
  end.

(** [callFunction] from [createFrame] up to the call to [runFunction]. *)
Definition enterFunction (f : Function) (argValues : list DynamicValue)
    (st : Interpreter) : result (FrameRef * Interpreter) :=
  let '(calleeFrame, st1) := createFrame f st in
  if (length argValues =? length (fnArgs f))%nat
     || ((length (fnArgs f) <? length argValues)%nat && isVarArg f)
  then
    '(i, st2) ← bindFixedArgs calleeFrame (fnArgs f) 0%nat argValues st1;
    st3 ← foldM (fun v => updateFrame calleeFrame (insertVararg v))
                (drop i argValues) st2;
    OK (calleeFrame, st3)
  else Fatal AssertionFailure.

(** [Interpreter::callFunction] *)
Fixpoint callFunction (fuel : nat) (f : Function)
    (argValues : list DynamicValue) (st : Interpreter)
  : result (DynamicValue * Interpreter) :=
  match fuel with
  | O => OutOfFuel
  | S fuel' =>
      if isDeclaration f then callExternalFunction f argValues st
      else
        '(calleeFrame, st1) ← enterFunction f argValues st;
        runFunction (callFunction fuel') fuel' calleeFrame st1
  end.

(** [Interpreter::runMain]: the arguments of [main] are not passed on. *)
Definition runMain (fuel : nat) (mainFn : Function) (mainArgs : list string)
    (st : Interpreter) : result (Z * Interpreter) :=
  let args : list DynamicValue := [] in
  '(retVal, st') ← callFunction fuel mainFn args st;
  if isUndefValue retVal then OK (0%Z, st')
  else
    i ← getAsIntValue retVal;
    OK (toInt (getSExtValue i), st').

End Engine.

(** ** A reference instantiation of the collaborators

    The engine is stated for every evaluator.  To run it on concrete
    programs the collaborators are instantiated with a small evaluator for
    integer arithmetic, stack allocation, loads, stores and calls. *)

Module Reference.

(** Modelled from the spec: the type-size query [allocationSizeOf] of
    section 6 belongs to the data layout; bytes per type, pointers and
    functions take eight bytes. *)
Fixpoint getTypeAllocSize (t : LType) : N :=
  match t with
  | IntegerTy bits => (bits + 7) / 8
  | PointerTy _ => 8
  | ArrayTy len elt => len * getTypeAllocSize elt
  | VectorTy len elt => len * getTypeAllocSize elt
  | StructTy _ => 0
  | FunctionTy _ => 8
  end.

(** Modelled from the spec: the constant evaluator of section 6
    ([evaluate] without a frame) is defined outside this translation unit;
    an integer constant is its value and a global is its address in the
    global-entity map. *)
Definition evaluateConstant (st : Interpreter) (c : Value)
  : result DynamicValue :=
  match c with
  | ConstantInt i => OK (IntValue i)
  | UndefConstant => OK UndefValue
  | GlobalRef g =>
      match globalEnv st !! g with
      | Some a => OK (PointerValue GlobalSpace a)
      | None => Fatal CollaboratorFailure
      end
  | LocalValue _ => Fatal CollaboratorFailure
  end.

(** Modelled from the spec: the operand evaluator of section 6 ([evaluate]
    with a frame) is defined outside this translation unit; a frame-bound
    value is read from the frame's binding table. *)
Definition evaluateOperand (st : Interpreter) (frame : FrameRef) (v : Value)
  : result DynamicValue :=
  match v with
  | LocalValue id =>
      fr ← getFrame frame st;
      match bindings fr !! id with
      | Some d => OK d
      | None => Fatal CollaboratorFailure
      end
  | _ => evaluateConstant st v
  end.

Fixpoint evaluateOperands (st : Interpreter) (frame : FrameRef)
    (vs : list Value) : result (list DynamicValue) :=
  match vs with
  | [] => OK []
  | v :: rest =>
      d ← evaluateOperand st frame v;
      ds ← evaluateOperands st frame rest;
      OK (d :: ds)
  end.

Definition wrap (bits : N) (z : Z) : APInt :=
  mkAPInt bits (z mod 2 ^ Z.of_N bits).

Definition binaryOp (op : Opcode) (a b : APInt) : result DynamicValue :=
  match op with
  | OpAdd => OK (IntValue (wrap (BitWidth a) (VAL a + VAL b)))
  | OpSub => OK (IntValue (wrap (BitWidth a) (VAL a - VAL b)))
  | OpMul => OK (IntValue (wrap (BitWidth a) (VAL a * VAL b)))
  | OpICmpEq => OK (IntValue (mkAPInt 1 (if APInt_eqb a b then 1 else 0)))
  | _ => Fatal CollaboratorFailure
  end.

Definition findFunction (m : Module) (id : FunctionId) : option Function :=
  find (fun f => fnId f =? id) (functions m).

(** Modelled from the spec: the instruction evaluator of section 6
    ([execute]) is defined outside this translation unit; it binds the
    instruction's result in its frame, claims stack bytes through
    [allocateStackMem] and calls through [callFunction]. *)
Definition evaluateInstruction (m : Module) (call : CallHook)
    (frame : FrameRef) (inst : Instruction) (st : Interpreter)
  : result Interpreter :=
  match inst with
  | PlainInst id OpAlloca [ConstantInt size] =>
      '(a, st1) ← allocateStackMem frame (Z.to_N (VAL size)) st;
      updateFrame frame (insertBinding id (PointerValue StackSpace a)) st1
  | PlainInst id OpLoad [ptr] =>
      p ← evaluateOperand st frame ptr;
      v ← match p with
          | PointerValue StackSpace a => read a (stackMem st)
          | PointerValue GlobalSpace a => read a (globalMem st)
          | _ => Fatal CollaboratorFailure
          end;
      updateFrame frame (insertBinding id v) st
  | PlainInst id OpStore [val; ptr] =>
      v ← evaluateOperand st frame val;
      p ← evaluateOperand st frame ptr;
      match p with
      | PointerValue StackSpace a =>
          mem ← write a v (stackMem st); OK (setStackMem mem st)
      | PointerValue GlobalSpace a =>
          mem ← write a v (globalMem st); OK (setGlobalMem mem st)
      | _ => Fatal CollaboratorFailure
      end
  | PlainInst id OpCall (GlobalRef (inr callee) :: args) =>
      match findFunction m callee with
      | None => Fatal CollaboratorFailure
      | Some f =>
          argValues ← evaluateOperands st frame args;
          '(r, st1) ← call f argValues st;
          updateFrame frame (insertBinding id r) st1
      end
  | PlainInst id op [x; y] =>
      a ← evaluateOperand st frame x;
      b ← evaluateOperand st frame y;
      i ← getAsIntValue a;
      j ← getAsIntValue b;
      r ← binaryOp op i j;
      updateFrame frame (insertBinding id r) st
  | _ => Fatal CollaboratorFailure
  end.

(** Modelled from the spec: the external-call boundary of section 4.5 is
    host code; this one ignores its arguments and returns no value. *)
Definition callExternalFunction : CallHook :=
  fun _ _ st => OK (UndefValue, st).

Definition invoke (m : Module) : nat -> CallHook :=
  callFunction evaluateOperand (evaluateInstruction m) callExternalFunction.

Definition initializeProgram (m : Module) (st : Interpreter)
  : result Interpreter :=
  evaluateGlobals getTypeAllocSize evaluateConstant m st.

End Reference.

(** ** Sample programs *)

Module Samples.

Definition i32 (z : Z) : APInt := mkAPInt 32 z.

(** [int fact(int n) { return n == 0 ? 1 : n * fact(n - 1); }]
    with blocks [entry], [base] and [rec]. *)
Definition fact : Function :=
  mkFunction 1 (FunctionTy false) [10] false
    [ [ PlainInst 11 OpICmpEq [LocalValue 10; ConstantInt (i32 0)];
        BranchInst 1%nat (Some (LocalValue 11, 2%nat)) ];
      [ ReturnInst (Some (ConstantInt (i32 1))) ];
      [ PlainInst 12 OpSub [LocalValue 10; ConstantInt (i32 1)];
        PlainInst 13 OpCall [GlobalRef (inr 1); LocalValue 12];
        PlainInst 14 OpMul [LocalValue 10; LocalValue 13];
        ReturnInst (Some (LocalValue 14)) ] ].

Definition factModule : Module := mkModule [] [fact].

Definition i64Ty : LType := IntegerTy 64.

(** [@A = global i64* @B] declared before [@B = global i64 7]. *)
Definition globalA : GlobalVariable :=
  mkGlobalVariable 1 (PointerTy i64Ty) (Some (GlobalRef (inl 2))).
Definition globalB : GlobalVariable :=
  mkGlobalVariable 2 i64Ty (Some (ConstantInt (mkAPInt 64 7))).
Definition forwardModule : Module := mkModule [globalA; globalB] [].

(** [forwardModule] before [A] is added to it. *)
Definition onlyB : Module := mkModule [globalB] [].

(** A program before and after a global is added to it. *)
Definition helper : Function :=
  mkFunction 3 (FunctionTy false) [] false [[ReturnInst None]].
Definition entry : Function :=
  mkFunction 4 (FunctionTy false) [] false [[ReturnInst None]].
Definition globalC : GlobalVariable := mkGlobalVariable 5 i64Ty None.
Definition globalD : GlobalVariable := mkGlobalVariable 6 i64Ty None.
Definition firstImage : Module := mkModule [globalC; globalD] [helper; entry].
Definition globalE : GlobalVariable := mkGlobalVariable 11 i64Ty None.
Definition secondImage : Module :=
  mkModule [globalC; globalD; globalE] [helper; entry].

(** [int main() { return -1; }] *)
Definition minusOne : Function :=
  mkFunction 13 (FunctionTy false) [] false
    [[ReturnInst (Some (ConstantInt (i32 4294967295)))]].

(** [@fp = global void ()* @helper]: a global initialised with the address
    of a function. *)
Definition fnPtrModule : Module :=
  mkModule [mkGlobalVariable 15 (PointerTy (FunctionTy false))
              (Some (GlobalRef (inr 3)))]
           [helper].

(** A module with a global of type [i32]. *)
Definition narrowModule : Module :=
  mkModule [mkGlobalVariable 16 (IntegerTy 32) None; globalD] [].

(** A module with a global that has an initialiser, and a function. *)
Definition mixedModule : Module := mkModule [globalB] [helper].

(** A module with a global of vector type. *)
Definition vectorModule : Module :=
  mkModule [globalC; mkGlobalVariable 12 (VectorTy 4 (IntegerTy 32)) None] [].

(** [int f(int n) { int slot = n; if (n == 0) return 0;
                      f(n - 1); return slot; }] *)
Definition allocRec : Function :=
  mkFunction 7 (FunctionTy false) [50] false
    [ [ PlainInst 51 OpAlloca [ConstantInt (i32 8)];
        PlainInst 52 OpStore [LocalValue 50; LocalValue 51];
        PlainInst 53 OpICmpEq [LocalValue 50; ConstantInt (i32 0)];
        BranchInst 1%nat (Some (LocalValue 53, 2%nat)) ];
      [ ReturnInst (Some (ConstantInt (i32 0))) ];
      [ PlainInst 54 OpSub [LocalValue 50; ConstantInt (i32 1)];
        PlainInst 55 OpCall [GlobalRef (inr 7); LocalValue 54];
        PlainInst 56 OpLoad [LocalValue 51];
        ReturnInst (Some (LocalValue 56)) ] ].

Definition allocModule : Module := mkModule [] [allocRec].

(** A caller that has claimed 16 bytes is on the stack. *)
Definition inCaller : Interpreter :=
  mkInterpreter [mkStackFrame entry ∅ [] 16] (mkMemorySection 16 ∅)
                emptySection ∅ ∅.

(** [fact] at its base block, with 24 of the 40 stack bytes its own. *)
Definition factFrame : StackFrame :=
  mkStackFrame fact (list_to_map [(10, IntValue (i32 0))]) [] 24.
Definition atReturn : Interpreter :=
  mkInterpreter [factFrame] (mkMemorySection 40 ∅) emptySection ∅ ∅.

(** [int sum(int count, int first, ...)] *)
Definition variadic2 : Function :=
  mkFunction 8 (FunctionTy true) [30; 31] true [[ReturnInst None]].

Definition fiveArgs : list DynamicValue :=
  [IntValue (i32 1); IntValue (i32 2); IntValue (i32 3); IntValue (i32 4);
   IntValue (i32 5)].

(** A declaration: one fixed parameter, not variadic, no body. *)
Definition externalDecl : Function :=
  mkFunction 9 (FunctionTy false) [60] false [].

(** A function whose entry block starts with a PHI node. *)
Definition phiEntry : Function :=
  mkFunction 10 (FunctionTy false) [] false
    [ [ PHINode 70 [(0%nat, ConstantInt (i32 5))];
        ReturnInst (Some (LocalValue 70)) ] ].
Definition inPhiEntry : Interpreter :=
  setStack [newFrame phiEntry] initialInterpreter.

(** A loop that exchanges two values on every iteration:
    [loop: a = phi [x, entry], [b, loop]; b = phi [y, entry], [a, loop]]. *)
Definition swapLoop : Function :=
  mkFunction 2 (FunctionTy false) [20; 21] false
    [ [ BranchInst 1%nat None ];
      [ PHINode 22 [(0%nat, LocalValue 20); (1%nat, LocalValue 23)];
        PHINode 23 [(0%nat, LocalValue 21); (1%nat, LocalValue 22)];
        BranchInst 1%nat None ] ].

Definition frameWith (f : Function) (bs : list (ValueId * DynamicValue))
  : StackFrame :=
  mkStackFrame f (list_to_map bs) [] 0.

(** The interpreter in the loop block, with [a = 1] and [b = 2]. *)
Definition swapBefore : Interpreter :=
  setStack [frameWith swapLoop [(22, IntValue (i32 1)); (23, IntValue (i32 2))]]
           initialInterpreter.

End Samples.

(** ** Notions used in the statements *)

(** The allocation sizes of the types [getType] gives for [gs], added up. *)
Definition totalAllocSize (getTypeAllocSize : LType -> N)
    (gs : list GlobalVariable) : N :=
  foldr (fun g acc => getTypeAllocSize (getType (GVariable g)) + acc) 0 gs.

(** One [insertBinding] of a (value, runtime value) pair. *)
Definition bindPair (fr : StackFrame) (pv : ValueId * DynamicValue)
  : StackFrame :=
  insertBinding pv.1 pv.2 fr.

(** The frame that [callFunction] hands to [runFunction]. *)
Definition enteredFrame (f : Function) (argValues : list DynamicValue)
  : StackFrame :=
  foldl (fun fr v => insertVararg v fr)
        (foldl bindPair (newFrame f) (zip (fnArgs f) argValues))
        (drop (length (fnArgs f)) argValues).

(** The condition asserted by [callFunction]. *)
Definition arityOK (f : Function) (argValues : list DynamicValue) : bool :=
  (length argValues =? length (fnArgs f))%nat
  || ((length (fnArgs f) <? length argValues)%nat && isVarArg f).

(** The PHI nodes at the head of a block, and the operand of a PHI node for
    a predecessor. *)
Fixpoint leadingPhis (insts : BasicBlock)
  : list (ValueId * list (BlockRef * Value)) :=
  match insts with
  | PHINode id incoming :: rest => (id, incoming) :: leadingPhis rest
  | _ => []
  end.

Definition incomingFor (incoming : list (BlockRef * Value)) (prevBB : BlockRef)
  : option Value :=
  getBasicBlockIndex incoming prevBB ≫= getIncomingValue incoming.

(** [evaluatedIn evaluateOperand st frame prevBB phi v]: [v] is the value,
    in the interpreter [st], of the operand of [phi] for [prevBB]. *)
Definition evaluatedIn
    (evaluateOperand : Interpreter -> FrameRef -> Value -> result DynamicValue)
    (st : Interpreter) (frame : FrameRef) (prevBB : BlockRef)
    (phi : ValueId * list (BlockRef * Value)) (v : DynamicValue) : Prop :=
  exists operand,
    incomingFor phi.2 prevBB = Some operand /\
    evaluateOperand st frame operand = OK v.

(** The claimed-byte totals of the frames on the stack, bottom first. *)
Definition allocSizes (st : Interpreter) : list N :=
  getAllocationSize <$> stack st.

(** [st'] has the frames of [st] with the same claimed totals, and the same
    mark of the stack section. *)
Definition StackRestored (st st' : Interpreter) : Prop :=
  allocSizes st' = allocSizes st /\
  usedSize (stackMem st') = usedSize (stackMem st).

(** Every call through [call] that returns restores the stack. *)
Definition BalancedCall (call : CallHook) : Prop :=
  forall f argValues st v st',
    call f argValues st = OK (v, st') -> StackRestored st st'.

(** The current frame sits on the frames [below] and the stack section is
    [b] bytes above what the current frame has claimed. *)
Definition frameBase (below : list N) (b : Z) (st : Interpreter) : Prop :=
  exists a,
    allocSizes st = below ++ [a] /\
    (Z.of_N (usedSize (stackMem st)) - Z.of_N a = b)%Z.

(** The instruction evaluator claims stack bytes for its own frame only,
    through [allocateStackMem], and calls through a balanced hook. *)
Definition OwnFrameOnly
    (evaluateInstruction :
       CallHook -> FrameRef -> Instruction -> Interpreter -> result Interpreter)
  : Prop :=
  forall call inst st st' below b,
    BalancedCall call ->
    frameBase below b st ->
    evaluateInstruction call (length below) inst st = OK st' ->
    frameBase below b st'.

(** A frame's requests for stack memory, one after the other. *)
Definition requestStackMem (frame : FrameRef) (sizes : list N)
    (st : Interpreter) : result Interpreter :=
  foldM (fun size st => snd <$> allocateStackMem frame size st) sizes st.

Definition sumSizes (sizes : list N) : N := foldr N.add 0 sizes.

(** The terminators that [runFunction] dispatches on. *)
Definition isSupportedTerminator (i : Instruction) : bool :=
  match i with
  | BranchInst _ _ | ReturnInst _ | SwitchInst _ _ _ => true
  | _ => false
  end.

(** A frame's requests for stack memory, with the addresses handed out. *)
Fixpoint allocateEach (frame : FrameRef) (sizes : list N) (st : Interpreter)
  : result (list Address * Interpreter) :=
  match sizes with
  | [] => OK ([], st)
  | size :: rest =>
      '(a, st1) ← allocateStackMem frame size st;
      '(addrs, st2) ← allocateEach frame rest st1;
      OK (a :: addrs, st2)
  end.

(** The allocation sizes of the types [getType] gives for the functions
    [fs], added up. *)
Definition totalFunctionSize (getTypeAllocSize : LType -> N)
    (fs : list Function) : N :=
  foldr (fun f acc => getTypeAllocSize (getType (GFunction f)) + acc) 0 fs.

(** Every call through [call] that returns leaves the frames on the stack
    as they were. *)
Definition KeepsStack (call : CallHook) : Prop :=
  forall f argValues st v st',
    call f argValues st = OK (v, st') -> stack st' = stack st.

(** The instruction evaluator changes no frame but its own. *)
Definition WritesOwnFrameOnly
    (evaluateInstruction :
       CallHook -> FrameRef -> Instruction -> Interpreter -> result Interpreter)
  : Prop :=
  forall call inst st st' below top,
    KeepsStack call ->
    stack st = below ++ [top] ->
    evaluateInstruction call (length below) inst st = OK st' ->
    exists top', stack st' = below ++ [top'].

(** The frames [below] are on the stack with one frame on top of them. *)
Definition onTopOf (below : list StackFrame) (st : Interpreter) : Prop :=
  exists top, stack st = below ++ [top].

(** * Properties of the engine *)

(** ** Basic facts *)

Lemma APInt_eqb_eq (a b : APInt) : APInt_eqb a b = true <-> a = b.
Proof.
  unfold APInt_eqb. rewrite andb_true_iff, N.eqb_eq, Z.eqb_eq.
  destruct a, b; simpl. split.
  - intros [-> ->]. reflexivity.
  - intros [= -> ->]. split; reflexivity.
Qed.

Lemma APInt_eqb_neq (a b : APInt) : APInt_eqb a b = false <-> a <> b.
Proof.
  rewrite <- APInt_eqb_eq. destruct (APInt_eqb a b); split; congruence.
Qed.

Lemma foldM_app {A S : Type} (step : A -> S -> result S) (xs ys : list A)
    (s : S) :
  foldM step (xs ++ ys) s = foldM step xs s ≫= foldM step ys.
Proof.
  revert s. induction xs as [|x xs IH]; intros s; simpl; [reflexivity|].
  destruct (step x s); simpl; auto.
Qed.

Lemma switchToNewBasicBlock_dest evaluateOperand frame f curBB destBB st bb st' :
  switchToNewBasicBlock evaluateOperand frame f curBB destBB st = OK (bb, st') ->
  bb = destBB.
Proof.
  unfold switchToNewBasicBlock. destruct (fnBlocks f !! destBB); [|discriminate].
  destruct (collectPhiValues _ _ _ _ _); simpl; try discriminate.
  destruct (commitPhiValues _ _ _); simpl; congruence.
Qed.

(** ** The switch terminator *)

Lemma findCaseDest_first_match condInt defaultDest l1 succ l2 :
  Forall (fun c => c.1 <> condInt) l1 ->
  findCaseDest condInt defaultDest (l1 ++ (condInt, succ) :: l2) = succ.
Proof.
  induction 1 as [|[c s] l1 Hc _ IH]; simpl.
  - replace (APInt_eqb condInt condInt) with true; [reflexivity|].
    symmetry. apply APInt_eqb_eq. reflexivity.
  - simpl in Hc. replace (APInt_eqb condInt c) with false; [exact IH|].
    symmetry. apply APInt_eqb_neq. congruence.
Qed.

Lemma findCaseDest_no_match condInt defaultDest cases :
  Forall (fun c => c.1 <> condInt) cases ->
  findCaseDest condInt defaultDest cases = defaultDest.
Proof.
  induction 1 as [|[c s] l Hc _ IH]; simpl; [reflexivity|].
  simpl in Hc. replace (APInt_eqb condInt c) with false; [exact IH|].
  symmetry. apply APInt_eqb_neq. congruence.
Qed.

Lemma findCaseDest_cases condInt defaultDest cases :
  (exists l1 succ l2,
      cases = l1 ++ (condInt, succ) :: l2 /\
      Forall (fun c => c.1 <> condInt) l1 /\
      findCaseDest condInt defaultDest cases = succ)
  \/ (Forall (fun c => c.1 <> condInt) cases /\
      findCaseDest condInt defaultDest cases = defaultDest).
Proof.
  induction cases as [|[c s] l IH]; simpl.
  - right. split; [constructor | reflexivity].
  - destruct (APInt_eqb condInt c) eqn:E.
    + apply APInt_eqb_eq in E. subst c. left. exists [], s, l.
      repeat split. constructor.
    + apply APInt_eqb_neq in E.
      destruct IH as [(l1 & succ & l2 & -> & Hl1 & Hd) | [Hall Hd]].
      * left. exists ((c, s) :: l1), succ, l2. repeat split; [|exact Hd].
        constructor; [simpl; congruence | exact Hl1].
      * right. split; [|exact Hd]. constructor; [simpl; congruence | exact Hall].
Qed.

(** C9.  A switch terminator whose selector evaluates to the integer
    [condInt] enters exactly one destination block from the current state:
    the successor of the first case, in declaration order, whose constant is
    the same integer (same width, same value), and the default destination
    when no case is equal, in particular when the case list is empty; the
    loop continues at that block. *)
Theorem switch_selects_first_equal_case
    (evaluateOperand : Interpreter -> FrameRef -> Value -> result DynamicValue)
    (frame : FrameRef) (f : Function) (curBB : BlockRef) (cond : Value)
    (defaultDest : BlockRef) (cases : list (APInt * BlockRef))
    (st : Interpreter) (condInt : APInt) :
  evaluateOperand st frame cond = OK (IntValue condInt) ->
  exists destBB,
    dispatchTerminator evaluateOperand frame f curBB
      (SwitchInst cond defaultDest cases) st
    = (r ← switchToNewBasicBlock evaluateOperand frame f curBB destBB st;
       OK (Continue destBB r.2))
    /\ ((exists l1 succ l2,
            cases = l1 ++ (condInt, succ) :: l2 /\
            Forall (fun c => c.1 <> condInt) l1 /\ destBB = succ)
        \/ (Forall (fun c => c.1 <> condInt) cases /\ destBB = defaultDest))
    /\ (cases = [] -> destBB = defaultDest).
Proof.
  intros Hcond. exists (findCaseDest condInt defaultDest cases).
  split; [|split].
  - unfold dispatchTerminator. rewrite Hcond. simpl.
    destruct (switchToNewBasicBlock _ _ _ _ _ _) as [[bb st']| |] eqn:E;
      simpl; try reflexivity.
    apply switchToNewBasicBlock_dest in E. subst bb. reflexivity.
  - destruct (findCaseDest_cases condInt defaultDest cases)
      as [(l1 & succ & l2 & H1 & H2 & H3) | [H1 H2]].
    + left. exists l1, succ, l2. auto.
    + right. auto.
  - intros ->. reflexivity.
Qed.

(** ** The return terminator *)

Lemma getCurrentFrame_snoc st below top :
  stack st = below ++ [top] -> getCurrentFrame st = OK top.
Proof. intros H. unfold getCurrentFrame. rewrite H, last_snoc. reflexivity. Qed.

Lemma getFrame_snoc st below top :
  stack st = below ++ [top] -> getFrame (length below) st = OK top.
Proof.
  intros H. unfold getFrame. rewrite H.
  rewrite lookup_app_r, Nat.sub_diag by lia. reflexivity.
Qed.

Lemma popStack_snoc st below top :
  stack st = below ++ [top] ->
  popStack st
  = OK (mkInterpreter below
          (mkMemorySection (usedSize (stackMem st) - getAllocationSize top)
                           (cells (stackMem st)))
          (globalMem st) (globalEnv st) (funPtrMap st)).
Proof.
  intros H. unfold popStack. rewrite (getCurrentFrame_snoc _ _ _ H). simpl.
  unfold popFrame, setStack, setStackMem, deallocate. simpl.
  rewrite H, removelast_last. reflexivity.
Qed.

(** C3.  When the loop reaches a return terminator in state [st] (the
    straight-line instructions of the block have run) with the returning
    frame [top] on top of the stack, the operand (when there is one) is
    evaluated in [st], before the pop, where [top] is the current frame;
    the state handed back has [top] popped and the stack section lowered by
    all of [top]'s claimed bytes in one step; and the loop ends with the
    evaluated value, or with the undefined value when the instruction
    carries none. *)
Theorem return_evaluates_then_pops
    (evaluateOperand : Interpreter -> FrameRef -> Value -> result DynamicValue)
    (evaluateInstruction :
       CallHook -> FrameRef -> Instruction -> Interpreter -> result Interpreter)
    (call : CallHook) (fuel : nat) (f : Function) (curBB : BlockRef)
    (bb : BasicBlock) (retval : option Value) (st0 st : Interpreter)
    (below : list StackFrame) (top : StackFrame) :
  let frame := length below in
  let popped :=
    mkInterpreter below
      (mkMemorySection (usedSize (stackMem st) - getAllocationSize top)
                       (cells (stackMem st)))
      (globalMem st) (globalEnv st) (funPtrMap st) in
  fnBlocks f !! curBB = Some bb ->
  evaluateStraightLine evaluateInstruction call frame (skipPHINodes bb) st0
  = OK st ->
  getTerminator bb = Some (ReturnInst retval) ->
  stack st = below ++ [top] ->
  getCurrentFrame st = OK top /\ getFrame frame st = OK top /\
  popStack st = OK popped /\
  dispatchTerminator evaluateOperand frame f curBB (ReturnInst retval) st
  = match retval with
    | Some value =>
        retVal ← evaluateOperand st frame value; OK (Return retVal popped)
    | None => OK (Return UndefValue popped)
    end /\
  runLoop evaluateOperand evaluateInstruction call (S fuel) frame f curBB st0
  = match retval with
    | Some value =>
        retVal ← evaluateOperand st frame value; OK (retVal, popped)
    | None => OK (UndefValue, popped)
    end.
Proof.
  intros frame popped Hbb Hline Hterm Hstack.
  assert (Hpop : popStack st = OK popped) by (apply popStack_snoc; exact Hstack).
  assert (Hdisp :
    dispatchTerminator evaluateOperand frame f curBB (ReturnInst retval) st
    = match retval with
      | Some value =>
          retVal ← evaluateOperand st frame value; OK (Return retVal popped)
      | None => OK (Return UndefValue popped)
      end).
  { unfold dispatchTerminator. destruct retval as [value|]; simpl.
    - destruct (evaluateOperand st frame value); simpl; try reflexivity.
      rewrite Hpop. reflexivity.
    - rewrite Hpop. reflexivity. }
  split; [eapply getCurrentFrame_snoc; exact Hstack|].
  split; [eapply getFrame_snoc; exact Hstack|].
  split; [exact Hpop|]. split; [exact Hdisp|].
  simpl. unfold runBlock. rewrite Hbb, Hline. simpl. rewrite Hterm, Hdisp.
  destruct retval as [value|]; simpl; [|reflexivity].
  destruct (evaluateOperand st frame value); reflexivity.
Qed.

(** ** Storage for globals *)

Lemma allocateGlobalMem_pointer_sized getTypeAllocSize gv st :
  isVectorTy (getType gv) = false /\
  allocateGlobalMem getTypeAllocSize gv st
  = OK (usedSize (globalMem st),
        setGlobalMem
          (mkMemorySection
             (usedSize (globalMem st) + getTypeAllocSize (getType gv))
             (cells (globalMem st))) st).
Proof. destruct gv; split; reflexivity. Qed.

Lemma allocateGlobal_nonvector getTypeAllocSize g st :
  allocateGlobal getTypeAllocSize g st
  = OK (insertGlobalEnv (inl (gvId g)) (usedSize (globalMem st))
          (setGlobalMem
             (mkMemorySection
                (usedSize (globalMem st)
                 + getTypeAllocSize (getType (GVariable g)))
                (cells (globalMem st))) st)).
Proof. reflexivity. Qed.

Lemma registerFunction_pointer_sized getTypeAllocSize f st :
  registerFunction getTypeAllocSize f st
  = OK (insertFunPtr (usedSize (globalMem st)) (fnId f)
          (insertGlobalEnv (inr (fnId f)) (usedSize (globalMem st))
             (setGlobalMem
                (mkMemorySection
                   (usedSize (globalMem st)
                    + getTypeAllocSize (getType (GFunction f)))
                   (cells (globalMem st))) st))).
Proof. reflexivity. Qed.

Lemma getType_is_pointer gv :
  getType gv
  = match gv with
    | GVariable g => PointerTy (gvValueType g)
    | GFunction f => PointerTy (fnType f)
    end.
Proof. reflexivity. Qed.

(** From here on the two loop bodies are used through these equations. *)
Opaque getType allocateGlobal registerFunction.

(** ** Entering a function *)

Lemma updateFrame_top (g : StackFrame -> StackFrame) st below top :
  stack st = below ++ [top] ->
  updateFrame (length below) g st = OK (setStack (below ++ [g top]) st).
Proof.
  intros H. unfold updateFrame. rewrite H.
  rewrite lookup_app_r, Nat.sub_diag by lia. simpl.
  rewrite insert_app_r_alt, Nat.sub_diag by lia. reflexivity.
Qed.

Lemma setStack_setStack s1 s2 st : setStack s1 (setStack s2 st) = setStack s1 st.
Proof. reflexivity. Qed.

Lemma bindFixedArgs_top params :
  forall i argValues st below top,
    stack st = below ++ [top] ->
    (i + length params <= length argValues)%nat ->
    bindFixedArgs (length below) params i argValues st
    = OK ((i + length params)%nat,
          setStack (below ++ [foldl bindPair top (zip params (drop i argValues))])
                   st).
Proof.
  induction params as [|p params IH]; intros i argValues st below top Hst Hlen;
    simpl in *.
  - rewrite Nat.add_0_r, <- Hst. destruct st; reflexivity.
  - destruct (argValues !! i) as [v|] eqn:Hv.
    2:{ apply lookup_ge_None in Hv. lia. }
    rewrite (updateFrame_top _ _ _ _ Hst). simpl.
    erewrite IH; [|reflexivity|lia].
    rewrite (drop_S _ _ _ Hv). simpl. rewrite setStack_setStack.
    f_equal. f_equal. lia.
Qed.

Lemma insertVarargs_top vs :
  forall st below top,
    stack st = below ++ [top] ->
    foldM (fun v => updateFrame (length below) (insertVararg v)) vs st
    = OK (setStack (below ++ [foldl (fun fr v => insertVararg v fr) top vs]) st).
Proof.
  induction vs as [|v vs IH]; intros st below top Hst; simpl.
  - rewrite <- Hst. destruct st; reflexivity.
  - rewrite (updateFrame_top _ _ _ _ Hst). simpl.
    erewrite IH; [|reflexivity]. rewrite setStack_setStack. reflexivity.
Qed.

Lemma foldl_insertVararg fr vs :
  let fr' := foldl (fun fr v => insertVararg v fr) fr vs in
  getFunction fr' = getFunction fr /\ bindings fr' = bindings fr /\
  varargs fr' = varargs fr ++ vs /\ getAllocationSize fr' = getAllocationSize fr.
Proof.
  revert fr. induction vs as [|v vs IH]; intros fr; simpl.
  - rewrite app_nil_r. auto.
  - destruct (IH (insertVararg v fr)) as (H1 & H2 & H3 & H4). simpl in *.
    rewrite H1, H2, H3, H4, <- app_assoc. auto.
Qed.

Lemma foldl_bindPair fr l :
  let fr' := foldl bindPair fr l in
  getFunction fr' = getFunction fr /\ varargs fr' = varargs fr /\
  getAllocationSize fr' = getAllocationSize fr /\
  bindings fr' = foldl (fun m pv => <[pv.1 := pv.2]> m) (bindings fr) l.
Proof.
  revert fr. induction l as [|pv l IH]; intros fr; simpl; [auto|].
  destruct (IH (bindPair fr pv)) as (H1 & H2 & H3 & H4). simpl in *.
  rewrite H1, H2, H3, H4. auto.
Qed.

Lemma foldl_insert_dom (l : list (ValueId * DynamicValue))
    (m : gmap ValueId DynamicValue) :
  dom (foldl (fun m pv => <[pv.1 := pv.2]> m) m l)
  = list_to_set l.*1 ∪ dom m.
Proof.
  revert m. induction l as [|[p v] l IH]; intros m; simpl.
  - symmetry. apply (left_id_L ∅ (∪)).
  - rewrite IH, dom_insert_L.
    rewrite !(assoc_L (∪)). f_equal. apply (comm_L (∪)).
Qed.

Lemma foldl_insert_notin (l : list (ValueId * DynamicValue))
    (m : gmap ValueId DynamicValue) (p : ValueId) :
  p ∉ l.*1 ->
  foldl (fun m pv => <[pv.1 := pv.2]> m) m l !! p = m !! p.
Proof.
  revert m. induction l as [|[q v] l IH]; intros m Hp; simpl; [reflexivity|].
  simpl in Hp. apply not_elem_of_cons in Hp as [Hne Hp].
  rewrite IH by exact Hp. apply lookup_insert_ne. congruence.
Qed.

Lemma foldl_insert_lookup (l : list (ValueId * DynamicValue))
    (m : gmap ValueId DynamicValue) (i : nat) (p : ValueId) (v : DynamicValue) :
  NoDup l.*1 -> l !! i = Some (p, v) ->
  foldl (fun m pv => <[pv.1 := pv.2]> m) m l !! p = Some v.
Proof.
  revert m i. induction l as [|[q w] l IH]; intros m i Hnd Hi; [discriminate|].
  simpl in Hnd. apply NoDup_cons in Hnd as [Hq Hnd]. destruct i as [|i]; simpl in *.
  - injection Hi as -> ->. rewrite foldl_insert_notin by exact Hq.
    apply lookup_insert_eq.
  - eapply IH; eassumption.
Qed.

Lemma arityOK_true f argValues :
  arityOK f argValues = true <->
  (length argValues = length (fnArgs f)
   \/ ((length (fnArgs f) < length argValues)%nat /\ isVarArg f = true)).
Proof.
  unfold arityOK.
  rewrite orb_true_iff, andb_true_iff, Nat.eqb_eq, Nat.ltb_lt. reflexivity.
Qed.

Lemma enterFunction_arity f argValues st :
  enterFunction f argValues st
  = if arityOK f argValues
    then OK (length (stack st),
             setStack (stack st ++ [enteredFrame f argValues]) st)
    else Fatal AssertionFailure.
Proof.
  unfold enterFunction, createFrame. fold (arityOK f argValues).
  destruct (arityOK f argValues) eqn:Hok; [|reflexivity].
  apply arityOK_true in Hok.
  erewrite bindFixedArgs_top; [|reflexivity|simpl; lia].
  simpl. erewrite insertVarargs_top; [|reflexivity].
  rewrite setStack_setStack. reflexivity.
Qed.

Lemma enteredFrame_allocation f argValues :
  getAllocationSize (enteredFrame f argValues) = 0.
Proof.
  unfold enteredFrame.
  destruct (foldl_insertVararg
              (foldl bindPair (newFrame f) (zip (fnArgs f) argValues))
              (drop (length (fnArgs f)) argValues)) as (_ & _ & _ & ->).
  destruct (foldl_bindPair (newFrame f) (zip (fnArgs f) argValues))
    as (_ & _ & -> & _).
  reflexivity.
Qed.

(** C7.  For a callable with a body, [n] fixed parameters and [m] arguments
    with [m = n], or [m > n] for a variadic callable, [callFunction] runs
    the body in a new frame on top of the stack whose binding table holds
    exactly the fixed parameters, inserted in declaration order with the
    first [n] arguments (parameter [i] is bound to argument [i]), and whose
    variadic overflow sequence is the remaining [m - n] arguments in
    call-site order. *)
Theorem invoke_binds_fixed_and_variadic
    (evaluateOperand : Interpreter -> FrameRef -> Value -> result DynamicValue)
    (evaluateInstruction :
       CallHook -> FrameRef -> Instruction -> Interpreter -> result Interpreter)
    (callExternalFunction : CallHook)
    (fuel : nat) (f : Function) (argValues : list DynamicValue)
    (st : Interpreter) :
  isDeclaration f = false ->
  (length argValues = length (fnArgs f)
   \/ ((length (fnArgs f) < length argValues)%nat /\ isVarArg f = true)) ->
  exists fr : StackFrame,
    let calleeFrame := length (stack st) in
    let st' := setStack (stack st ++ [fr]) st in
    enterFunction f argValues st = OK (calleeFrame, st') /\
    callFunction evaluateOperand evaluateInstruction callExternalFunction
                 (S fuel) f argValues st
    = runFunction evaluateOperand evaluateInstruction
        (callFunction evaluateOperand evaluateInstruction callExternalFunction
                      fuel)
        fuel calleeFrame st' /\
    getFunction fr = f /\ getAllocationSize fr = 0 /\
    bindings fr
    = foldl (fun m pv => <[pv.1 := pv.2]> m) ∅
            (zip (fnArgs f) (take (length (fnArgs f)) argValues)) /\
    dom (bindings fr) = list_to_set (fnArgs f) /\
    (NoDup (fnArgs f) ->
     forall i p, fnArgs f !! i = Some p -> bindings fr !! p = argValues !! i) /\
    varargs fr = drop (length (fnArgs f)) argValues /\
    length (varargs fr) = (length argValues - length (fnArgs f))%nat.
Proof.
  intros Hbody Hpre.
  assert (Hlen : (length (fnArgs f) <= length argValues)%nat) by lia.
  set (fr1 := foldl bindPair (newFrame f) (zip (fnArgs f) argValues)).
  set (fr := foldl (fun fr v => insertVararg v fr) fr1
                   (drop (length (fnArgs f)) argValues)).
  exists fr.
  assert (Henter : enterFunction f argValues st
                   = OK (length (stack st), setStack (stack st ++ [fr]) st)).
  { rewrite enterFunction_arity.
    replace (arityOK f argValues) with true; [reflexivity|].
    symmetry. apply arityOK_true. exact Hpre. }
  destruct (foldl_insertVararg fr1 (drop (length (fnArgs f)) argValues))
    as (Hf2 & Hb2 & Hv2 & Ha2).
  destruct (foldl_bindPair (newFrame f) (zip (fnArgs f) argValues))
    as (Hf1 & Hv1 & Ha1 & Hb1).
  fold fr1 in Hf1, Hv1, Ha1, Hb1. fold fr in Hf2, Hb2, Hv2, Ha2.
  assert (Hzip : zip (fnArgs f) (take (length (fnArgs f)) argValues)
                 = zip (fnArgs f) argValues) by (apply zip_with_take_r).
  assert (Hbind : bindings fr
                  = foldl (fun m pv => <[pv.1 := pv.2]> m) ∅
                          (zip (fnArgs f) argValues)).
  { rewrite Hb2, Hb1. reflexivity. }
  simpl. split; [exact Henter|]. split.
  { rewrite Hbody, Henter. reflexivity. }
  split; [rewrite Hf2, Hf1; reflexivity|].
  split; [rewrite Ha2, Ha1; reflexivity|].
  split; [rewrite Hzip; exact Hbind|].
  split.
  { rewrite Hbind, foldl_insert_dom, fst_zip by exact Hlen.
    rewrite dom_empty_L. apply (right_id_L ∅ (∪)). }
  split.
  { intros Hnd i p Hp.
    assert (Hi : (i < length argValues)%nat).
    { apply lookup_lt_Some in Hp. lia. }
    destruct (lookup_lt_is_Some_2 argValues i Hi) as [v Hv].
    rewrite Hv, Hbind. apply (foldl_insert_lookup _ _ i).
    - rewrite fst_zip by exact Hlen. exact Hnd.
    - rewrite lookup_zip_with, Hp, Hv. reflexivity. }
  split; [rewrite Hv2, Hv1; reflexivity|].
  rewrite Hv2, Hv1. simpl. apply length_drop.
Qed.

(** C8 (amended).  When the argument count neither equals the fixed
    parameter count nor exceeds it for a variadic callable, an invocation
    of a callable with a body fails the assertion of [callFunction], a
    fatal outcome whatever the collaborators are; an invocation of a
    callable without a body is handed to the external-call boundary, the
    assertion not being evaluated. *)
Theorem invoke_with_body_asserts_arity
    (evaluateOperand : Interpreter -> FrameRef -> Value -> result DynamicValue)
    (evaluateInstruction :
       CallHook -> FrameRef -> Instruction -> Interpreter -> result Interpreter)
    (callExternalFunction : CallHook)
    (fuel : nat) (f : Function) (argValues : list DynamicValue)
    (st : Interpreter) :
  length argValues <> length (fnArgs f) ->
  ~ ((length (fnArgs f) < length argValues)%nat /\ isVarArg f = true) ->
  callFunction evaluateOperand evaluateInstruction callExternalFunction
               (S fuel) f argValues st
  = if isDeclaration f then callExternalFunction f argValues st
    else Fatal AssertionFailure.
Proof.
  intros Hne Hnv. simpl. destruct (isDeclaration f); [reflexivity|].
  rewrite enterFunction_arity.
  destruct (arityOK f argValues) eqn:Hok; [|reflexivity].
  apply arityOK_true in Hok. tauto.
Qed.

(** ** The first execution of the entry block *)

Lemma skipPHINodes_app phis rest :
  Forall (fun i => isPHINode i = true) phis ->
  skipPHINodes (phis ++ rest) = skipPHINodes rest.
Proof.
  induction 1 as [|i phis Hi _ IH]; simpl; [reflexivity|].
  rewrite Hi. exact IH.
Qed.

Lemma skipPHINodes_stop bb :
  (forall i, head bb = Some i -> isPHINode i = false) ->
  skipPHINodes bb = bb.
Proof.
  destruct bb as [|i bb]; simpl; [reflexivity|].
  intros H. rewrite (H i eq_refl). reflexivity.
Qed.

Lemma evaluateStraightLine_body evaluateInstruction call frame body term st :
  Forall (fun i => isTerminator i = false) body ->
  isTerminator term = true ->
  evaluateStraightLine evaluateInstruction call frame (body ++ [term]) st
  = foldM (evaluateInstruction call frame) body st.
Proof.
  intros Hbody Hterm. revert st.
  induction Hbody as [|i body Hi _ IH]; intros st; simpl.
  - rewrite Hterm. reflexivity.
  - rewrite Hi. destruct (evaluateInstruction call frame i st); simpl; auto.
Qed.

Lemma getTerminator_snoc l term :
  isTerminator term = true -> getTerminator (l ++ [term]) = Some term.
Proof. intros H. unfold getTerminator. rewrite last_snoc, H. reflexivity. Qed.

(** C10.  When [runFunction] starts on a function whose entry block is a
    run of PHI nodes [phis], then the non-terminators [body], then the
    terminator [term], the first iteration runs the instruction evaluator
    over [body] only, from the interpreter as it is on entry, and then
    dispatches [term]: the outcome does not mention [phis], so none of
    their operands is evaluated and no binding is written for them. *)
Theorem entry_block_phis_are_skipped
    (evaluateOperand : Interpreter -> FrameRef -> Value -> result DynamicValue)
    (evaluateInstruction :
       CallHook -> FrameRef -> Instruction -> Interpreter -> result Interpreter)
    (call : CallHook) (fuel : nat) (frame : FrameRef) (st : Interpreter)
    (fr : StackFrame) (phis body : list Instruction) (term : Instruction) :
  getFrame frame st = OK fr ->
  fnBlocks (getFunction fr) !! 0%nat = Some (phis ++ body ++ [term]) ->
  Forall (fun i => isPHINode i = true) phis ->
  Forall (fun i => isTerminator i = false) body ->
  (forall i, head body = Some i -> isPHINode i = false) ->
  isTerminator term = true ->
  runFunction evaluateOperand evaluateInstruction call (S fuel) frame st
  = (st1 ← foldM (evaluateInstruction call frame) body st;
     step ← dispatchTerminator evaluateOperand frame (getFunction fr) 0%nat
              term st1;
     match step with
     | Continue bb st' =>
         runLoop evaluateOperand evaluateInstruction call fuel frame
                 (getFunction fr) bb st'
     | Return retVal st' => OK (retVal, st')
     end).
Proof.
  intros Hfr Hentry Hphis Hbody Hhead Hterm.
  unfold runFunction. rewrite Hfr. cbn -[lookup]. unfold runBlock.
  rewrite Hentry.
  rewrite (skipPHINodes_app _ _ Hphis).
  rewrite skipPHINodes_stop.
  2:{ intros i Hi. destruct body as [|b body]; simpl in Hi.
      - injection Hi as <-. destruct term; try discriminate; reflexivity.
      - apply Hhead. exact Hi. }
  rewrite (evaluateStraightLine_body _ _ _ _ _ _ Hbody Hterm).
  rewrite app_assoc, (getTerminator_snoc _ _ Hterm).
  destruct (foldM (evaluateInstruction call frame) body st); reflexivity.
Qed.

(** ** Entering a block with PHI nodes *)








(** ** Global initialisation *)

Lemma initializeGlobal_globalEnv evaluateConstant g st st' :
  initializeGlobal evaluateConstant g st = OK st' ->
  globalEnv st' = globalEnv st.
Proof.
  unfold initializeGlobal.
  destruct (globalEnv st !! inl (gvId g)) as [addr|]; [|discriminate].
  destruct (gvInitializer g) as [init|]; [|congruence].
  destruct (evaluateConstant st init) as [v| |]; simpl; try discriminate.
  destruct (write addr v (globalMem st)); simpl; try discriminate.
  intros [= <-]. reflexivity.
Qed.

Lemma initializeGlobals_globalEnv evaluateConstant gs st st' :
  foldM (initializeGlobal evaluateConstant) gs st = OK st' ->
  globalEnv st' = globalEnv st.
Proof.
  revert st. induction gs as [|g gs IH]; intros st; simpl.
  - congruence.
  - destruct (initializeGlobal evaluateConstant g st) as [st1| |] eqn:E;
      simpl; try discriminate.
    intros H. rewrite (IH _ H). eapply initializeGlobal_globalEnv. exact E.
Qed.

Lemma map_insert_new_lookup `{Countable K} {V : Type} (k k' : K) (v : V)
    (m : gmap K V) :
  map_insert_new k v m !! k'
  = match m !! k' with
    | Some w => Some w
    | None => if decide (k = k') then Some v else None
    end.
Proof.
  unfold map_insert_new. destruct (m !! k) as [w|] eqn:E.
  - destruct (m !! k') eqn:E'; [reflexivity|].
    destruct (decide (k = k')); [congruence | reflexivity].
  - rewrite lookup_insert. destruct (decide (k = k')) as [->|].
    + rewrite E. reflexivity.
    + destruct (m !! k'); reflexivity.
Qed.

Lemma allocateGlobal_inv getTypeAllocSize g st st' :
  allocateGlobal getTypeAllocSize g st = OK st' ->
  isVectorTy (getType (GVariable g)) = false /\
  st' = insertGlobalEnv (inl (gvId g)) (usedSize (globalMem st))
          (setGlobalMem
             (mkMemorySection
                (usedSize (globalMem st)
                 + getTypeAllocSize (getType (GVariable g)))
                (cells (globalMem st))) st).
Proof.
  rewrite allocateGlobal_nonvector. intros [= <-]. split; reflexivity.
Qed.

(** Entries that are in the map before the first loop stay as they are. *)
Lemma allocateGlobals_keeps getTypeAllocSize gs st st' k a :
  foldM (allocateGlobal getTypeAllocSize) gs st = OK st' ->
  globalEnv st !! k = Some a -> globalEnv st' !! k = Some a.
Proof.
  revert st. induction gs as [|g gs IH]; intros st; simpl.
  - congruence.
  - destruct (allocateGlobal getTypeAllocSize g st) as [st1| |] eqn:E;
      simpl; try discriminate.
    intros Hrun Hk. apply (IH _ Hrun).
    apply allocateGlobal_inv in E as [_ ->]. simpl.
    rewrite map_insert_new_lookup, Hk. reflexivity.
Qed.

(** A global that is not yet in the map gets the address allocated for it:
    the mark of the global section when its turn comes. *)
Lemma allocateGlobals_fresh getTypeAllocSize l1 g l2 st st' :
  foldM (allocateGlobal getTypeAllocSize) (l1 ++ g :: l2) st = OK st' ->
  globalEnv st !! inl (gvId g) = None ->
  gvId g ∉ gvId <$> l1 ->
  globalEnv st' !! inl (gvId g)
  = Some (usedSize (globalMem st) + totalAllocSize getTypeAllocSize l1).
Proof.
  revert st. induction l1 as [|h l1 IH]; intros st; simpl.
  - destruct (allocateGlobal getTypeAllocSize g st) as [st1| |] eqn:E;
      simpl; try discriminate.
    intros Hrun Hnone _. apply (allocateGlobals_keeps _ _ _ _ _ _ Hrun).
    apply allocateGlobal_inv in E as [_ ->]. simpl.
    rewrite map_insert_new_lookup, Hnone.
    rewrite decide_True by reflexivity. f_equal. lia.
  - destruct (allocateGlobal getTypeAllocSize h st) as [st1| |] eqn:E;
      simpl; try discriminate.
    intros Hrun Hnone Hnotin. apply not_elem_of_cons in Hnotin as [Hne Hnotin].
    rewrite (IH _ Hrun); [| |exact Hnotin].
    + apply allocateGlobal_inv in E as [_ ->]. simpl. f_equal. lia.
    + apply allocateGlobal_inv in E as [_ ->]. simpl.
      rewrite map_insert_new_lookup, Hnone.
      rewrite decide_False; [reflexivity|]. congruence.
Qed.

Lemma allocateGlobals_bound getTypeAllocSize gs st st' g :
  foldM (allocateGlobal getTypeAllocSize) gs st = OK st' ->
  g ∈ gs -> is_Some (globalEnv st' !! inl (gvId g)).
Proof.
  revert st. induction gs as [|h gs IH]; intros st Hrun Hin.
  - inversion Hin.
  - simpl in Hrun.
    destruct (allocateGlobal getTypeAllocSize h st) as [st1| |] eqn:E;
      simpl in Hrun; try discriminate.
    apply elem_of_cons in Hin as [-> | Hin]; [|eapply IH; eassumption].
    apply allocateGlobal_inv in E as [_ ->].
    match type of Hrun with
    | foldM _ _ ?s = _ =>
        destruct (globalEnv s !! inl (gvId h)) as [a|] eqn:Ea
    end.
    + exists a. eapply allocateGlobals_keeps; eassumption.
    + simpl in Ea. rewrite map_insert_new_lookup in Ea.
      destruct (globalEnv st !! inl (gvId h)); [discriminate|].
      rewrite decide_True in Ea by reflexivity. discriminate.
Qed.


Lemma registerFunction_inv getTypeAllocSize f st st' :
  registerFunction getTypeAllocSize f st = OK st' ->
  globalEnv st'
  = map_insert_new (inr (fnId f)) (usedSize (globalMem st)) (globalEnv st) /\
  funPtrMap st'
  = map_insert_new (usedSize (globalMem st)) (fnId f) (funPtrMap st).
Proof.
  rewrite registerFunction_pointer_sized. intros [= <-]. split; reflexivity.
Qed.

Lemma registerFunctions_keep getTypeAllocSize fs st st' :
  foldM (registerFunction getTypeAllocSize) fs st = OK st' ->
  (forall k a, globalEnv st !! k = Some a -> globalEnv st' !! k = Some a) /\
  (forall a f, funPtrMap st !! a = Some f -> funPtrMap st' !! a = Some f).
Proof.
  revert st. induction fs as [|f fs IH]; intros st; simpl.
  - intros [= <-]. auto.
  - destruct (registerFunction getTypeAllocSize f st) as [st1| |] eqn:E;
      simpl; try discriminate.
    intros Hrun. destruct (IH _ Hrun) as [Henv Hfun].
    apply registerFunction_inv in E as [Eenv Efun]. split.
    + intros k a Hk. apply Henv. rewrite Eenv, map_insert_new_lookup, Hk.
      reflexivity.
    + intros a g Ha. apply Hfun. rewrite Efun, map_insert_new_lookup, Ha.
      reflexivity.
Qed.

(** No call of [evaluateGlobals] removes or changes an entry of the two
    maps: what was bound before the call is bound to the same after it. *)
Lemma evaluateGlobals_keeps_entries getTypeAllocSize evaluateConstant m st st' :
  evaluateGlobals getTypeAllocSize evaluateConstant m st = OK st' ->
  (forall k a, globalEnv st !! k = Some a -> globalEnv st' !! k = Some a) /\
  (forall a f, funPtrMap st !! a = Some f -> funPtrMap st' !! a = Some f).
Proof.
  unfold evaluateGlobals.
  destruct (foldM (allocateGlobal getTypeAllocSize) (globals m) _)
    as [st1| |] eqn:E1; simpl; try discriminate.
  destruct (foldM (initializeGlobal evaluateConstant) (globals m) st1)
    as [st2| |] eqn:E2; simpl; try discriminate.
  intros E3. destruct (registerFunctions_keep _ _ _ _ E3) as [Henv Hfun].
  pose proof (initializeGlobals_globalEnv _ _ _ _ E2) as Henv2.
  split.
  - intros k a Hk. apply Henv. rewrite Henv2.
    eapply allocateGlobals_keeps; [exact E1 | exact Hk].
  - intros a f Ha. apply Hfun.
    assert (Hf2 : funPtrMap st2 = funPtrMap st1).
    { clear -E2. revert st1 E2.
      induction (globals m) as [|g gs IH]; intros st1; simpl.
      - congruence.
      - destruct (initializeGlobal evaluateConstant g st1) as [s| |] eqn:E;
          simpl; try discriminate.
        intros H. rewrite (IH _ H). clear -E. unfold initializeGlobal in E.
        destruct (globalEnv st1 !! inl (gvId g)); [|discriminate].
        destruct (gvInitializer g) as [init|]; [|congruence].
        destruct (evaluateConstant st1 init) as [v| |]; simpl in E;
          try discriminate.
        destruct (write n v (globalMem st1)); simpl in E; try discriminate.
        injection E as <-. reflexivity. }
    assert (Hf1 : funPtrMap st1 = funPtrMap st).
    { clear -E1.
      assert (Hgen : forall gs s s',
                 foldM (allocateGlobal getTypeAllocSize) gs s = OK s' ->
                 funPtrMap s' = funPtrMap s).
      { induction gs as [|g gs IH]; intros s s'; simpl; [congruence|].
        destruct (allocateGlobal getTypeAllocSize g s) as [s1| |] eqn:E;
          simpl; try discriminate.
        intros H. rewrite (IH _ _ H).
        apply allocateGlobal_inv in E as [_ ->]. reflexivity. }
      rewrite (Hgen _ _ _ E1). reflexivity. }
    rewrite Hf2, Hf1. exact Ha.
Qed.

(** C4 (evaluated on the code).  [Samples.firstImage] is initialised, the
    global [11] is added to the program ([Samples.secondImage]) and the
    program is initialised again.  The second call allocates the globals at
    [0], [8] and [16] and the functions [3] and [4] at [24] and [32], but
    afterwards the global-entity map still gives the functions the
    addresses [16] and [24] of the first call, so function [3] has the
    address of the storage of global [11], and the address [24], allocated
    to function [3], still resolves to function [4]; a first initialisation
    of the same image gives [24] and [32]. *)
Theorem reinitialization_keeps_stale_entries :
  let view (st : Interpreter) :=
    ((fun k => globalEnv st !! k) <$> [inl 5; inl 6; inl 11; inr 3; inr 4],
     (fun a => funPtrMap st !! a) <$> [16; 24; 32],
     usedSize (globalMem st)) in
  view <$> (Reference.initializeProgram Samples.firstImage initialInterpreter
            ≫= Reference.initializeProgram Samples.secondImage)
  = OK ([Some 0; Some 8; Some 16; Some 16; Some 24],
        [Some 3; Some 4; Some 4], 40)
  /\
  view <$> Reference.initializeProgram Samples.secondImage initialInterpreter
  = OK ([Some 0; Some 8; Some 16; Some 24; Some 32],
        [None; Some 3; Some 4], 40).
Proof. split; vm_compute; reflexivity. Qed.

(** C5 (evaluated on the code).  [Samples.onlyB] is initialised, the global
    [A], whose initialiser is the address of [B], is added in front of [B]
    ([Samples.forwardModule]) and the program is initialised again.  The
    second call allocates [A] at [0] and [B] at [8], but the insertion for
    [B] finds the entry of the first call, so the initialiser of [A]
    resolves [B] to [0], the storage of [A] itself, and the initialiser of
    [B] then overwrites the cell of [A]; the storage allocated for [B]
    stays empty.  A first initialisation of the same module binds [B] to
    [8] and leaves the address [8] in the cell of [A]. *)
Theorem reinitialization_resolves_stale_address :
  let view (st : Interpreter) :=
    ((fun k => globalEnv st !! k) <$> [inl 1; inl 2],
     (fun a => cells (globalMem st) !! a) <$> [0; 8],
     usedSize (globalMem st)) in
  view <$> (Reference.initializeProgram Samples.onlyB initialInterpreter
            ≫= Reference.initializeProgram Samples.forwardModule)
  = OK ([Some 0; Some 0], [Some (IntValue (mkAPInt 64 7)); None], 16)
  /\
  view <$> Reference.initializeProgram Samples.forwardModule initialInterpreter
  = OK ([Some 0; Some 8],
        [Some (PointerValue GlobalSpace 8); Some (IntValue (mkAPInt 64 7))],
        16).
Proof. split; vm_compute; reflexivity. Qed.

(** C6 (evaluated on the code).  [allocateGlobalMem] tests and sizes the
    type that [getType] gives, the pointer type to the declared type: the
    vector test never holds and the storage is that of a pointer, for every
    data layout, global value and interpreter.  With pointers of 8 bytes a
    global of type [<4 x i32>] (allocation size 16) is not fatal and gets 8
    bytes, and a global of type [i32] (allocation size 4) gets 8 bytes, the
    global after it starting at [8]. *)
Theorem global_storage_is_pointer_sized :
  (forall (getTypeAllocSize : LType -> N) (gv : GlobalValue)
          (st : Interpreter),
      isVectorTy (getType gv) = false /\
      getType gv
      = match gv with
        | GVariable g => PointerTy (gvValueType g)
        | GFunction f => PointerTy (fnType f)
        end /\
      allocateGlobalMem getTypeAllocSize gv st
      = OK (usedSize (globalMem st),
            setGlobalMem
              (mkMemorySection
                 (usedSize (globalMem st) + getTypeAllocSize (getType gv))
                 (cells (globalMem st))) st)) /\
  (Reference.getTypeAllocSize (VectorTy 4 (IntegerTy 32)) = 16 /\
   (fun st => ((fun k => globalEnv st !! k) <$> [inl 5; inl 12],
               usedSize (globalMem st)))
     <$> Reference.initializeProgram Samples.vectorModule initialInterpreter
   = OK ([Some 0; Some 8], 16)) /\
  (Reference.getTypeAllocSize (IntegerTy 32) = 4 /\
   (fun st => ((fun k => globalEnv st !! k) <$> [inl 16; inl 6],
               usedSize (globalMem st)))
     <$> Reference.initializeProgram Samples.narrowModule initialInterpreter
   = OK ([Some 0; Some 8], 16)).
Proof.
  split; [|split].
  - intros getTypeAllocSize gv st.
    destruct (allocateGlobalMem_pointer_sized getTypeAllocSize gv st)
      as [Hv Hrun].
    split; [exact Hv|]. split; [apply getType_is_pointer | exact Hrun].
  - split; vm_compute; reflexivity.
  - split; vm_compute; reflexivity.
Qed.

(** ** Stack discipline *)

Lemma allocSizes_top st below a :
  allocSizes st = below ++ [a] ->
  exists s top,
    stack st = s ++ [top] /\ getAllocationSize <$> s = below /\
    getAllocationSize top = a.
Proof.
  unfold allocSizes. intros H.
  apply fmap_app_inv in H as (s & t & Hs & Ht & Hst).
  destruct t as [|top [|? ?]]; try discriminate.
  injection Ht as Ht. exists s, top. auto.
Qed.

Lemma updateFrame_top_sizes (g : StackFrame -> StackFrame) st st' below a :
  allocSizes st = below ++ [a] ->
  updateFrame (length below) g st = OK st' ->
  exists top,
    getAllocationSize top = a /\
    allocSizes st' = below ++ [getAllocationSize (g top)] /\
    stackMem st' = stackMem st.
Proof.
  intros Hsizes Hupd.
  destruct (allocSizes_top _ _ _ Hsizes) as (s & top & Hst & Hs & Ha).
  assert (Hlen : length below = length s) by (rewrite <- Hs, length_fmap; reflexivity).
  rewrite Hlen, (updateFrame_top _ _ _ _ Hst) in Hupd.
  injection Hupd as <-. exists top. split; [exact Ha|].
  unfold allocSizes. simpl. rewrite fmap_app, Hs. auto.
Qed.

Lemma updateFrame_frameBase (g : StackFrame -> StackFrame) st st' below b :
  (forall fr, getAllocationSize (g fr) = getAllocationSize fr) ->
  frameBase below b st ->
  updateFrame (length below) g st = OK st' ->
  frameBase below b st'.
Proof.
  intros Hg (a & Hsizes & Hb) Hupd.
  destruct (updateFrame_top_sizes _ _ _ _ _ Hsizes Hupd) as (top & Ha & Hs' & Hm).
  exists a. rewrite Hs', Hg, Ha, Hm. auto.
Qed.

Lemma commitPhiValues_frameBase cache st st' below b :
  frameBase below b st ->
  commitPhiValues (length below) cache st = OK st' ->
  frameBase below b st'.
Proof.
  unfold commitPhiValues. revert st.
  induction cache as [|[id v] cache IH]; intros st Hbase; simpl.
  - congruence.
  - destruct (updateFrame (length below) (insertBinding id v) st)
      as [st1| |] eqn:E; simpl; try discriminate.
    apply IH. eapply updateFrame_frameBase; [|exact Hbase|exact E].
    reflexivity.
Qed.

Lemma switchToNewBasicBlock_frameBase evaluateOperand f curBB destBB st bb st'
    below b :
  frameBase below b st ->
  switchToNewBasicBlock evaluateOperand (length below) f curBB destBB st
  = OK (bb, st') ->
  frameBase below b st'.
Proof.
  intros Hbase. unfold switchToNewBasicBlock.
  destruct (fnBlocks f !! destBB) as [insts|]; [|discriminate].
  destruct (collectPhiValues evaluateOperand (length below) curBB insts st)
    as [cache| |]; simpl; try discriminate.
  destruct (commitPhiValues (length below) cache st) as [st1| |] eqn:E;
    simpl; try discriminate.
  intros [= _ <-]. eapply commitPhiValues_frameBase; eassumption.
Qed.

Lemma popStack_frameBase st st' below b :
  (0 <= b)%Z ->
  frameBase below b st ->
  popStack st = OK st' ->
  allocSizes st' = below /\ Z.of_N (usedSize (stackMem st')) = b.
Proof.
  intros Hb (a & Hsizes & Hbase) Hpop.
  destruct (allocSizes_top _ _ _ Hsizes) as (s & top & Hst & Hs & Ha).
  rewrite (popStack_snoc _ _ _ Hst) in Hpop. injection Hpop as <-.
  unfold allocSizes. simpl. split; [exact Hs|]. lia.
Qed.

Section StackDiscipline.

Variable evaluateOperand :
  Interpreter -> FrameRef -> Value -> result DynamicValue.
Variable evaluateInstruction :
  CallHook -> FrameRef -> Instruction -> Interpreter -> result Interpreter.
Variable callExternalFunction : CallHook.

Hypothesis external_balanced : BalancedCall callExternalFunction.
Hypothesis instructions_own_frame : OwnFrameOnly evaluateInstruction.

Lemma evaluateStraightLine_frameBase call insts st st' below b :
  BalancedCall call ->
  frameBase below b st ->
  evaluateStraightLine evaluateInstruction call (length below) insts st
  = OK st' ->
  frameBase below b st'.
Proof.
  intros Hcall. revert st.
  induction insts as [|i insts IH]; intros st Hbase; simpl.
  - congruence.
  - destruct (isTerminator i); [congruence|].
    destruct (evaluateInstruction call (length below) i st)
      as [st1| |] eqn:E; simpl; try discriminate.
    apply IH. eapply instructions_own_frame; eassumption.
Qed.

Lemma dispatchTerminator_frameBase f curBB termInst st below b :
  (0 <= b)%Z ->
  frameBase below b st ->
  match dispatchTerminator evaluateOperand (length below) f curBB termInst st
  with
  | OK (Continue _ st') => frameBase below b st'
  | OK (Return _ st') =>
      allocSizes st' = below /\ Z.of_N (usedSize (stackMem st')) = b
  | _ => True
  end.
Proof.
  intros Hb Hbase.
  destruct termInst; simpl; try exact I.
  - (* branch *)
    match goal with
    | |- context [?r ≫= (fun destBB => _)] => destruct r as [destBB| |]
    end; simpl; try exact I.
    destruct (switchToNewBasicBlock evaluateOperand (length below) f curBB
                destBB st) as [[bb st']| |] eqn:E; simpl; try exact I.
    eapply switchToNewBasicBlock_frameBase; eassumption.
  - (* return *)
    match goal with
    | |- context [?r ≫= (fun retVal => _)] => destruct r as [retVal| |]
    end; simpl; try exact I.
    destruct (popStack st) as [st'| |] eqn:E; simpl; try exact I.
    eapply popStack_frameBase; eassumption.
  - (* switch *)
    destruct (evaluateOperand st (length below) cond) as [condVal| |];
      simpl; try exact I.
    destruct (getAsIntValue condVal) as [condInt| |]; simpl; try exact I.
    destruct (switchToNewBasicBlock evaluateOperand (length below) f curBB
                (findCaseDest condInt defaultDest cases) st)
      as [[bb st']| |] eqn:E; simpl; try exact I.
    eapply switchToNewBasicBlock_frameBase; eassumption.
Qed.

Lemma runLoop_restores call :
  BalancedCall call ->
  forall fuel f curBB st below b v st',
    (0 <= b)%Z ->
    frameBase below b st ->
    runLoop evaluateOperand evaluateInstruction call fuel (length below)
            f curBB st = OK (v, st') ->
    allocSizes st' = below /\ Z.of_N (usedSize (stackMem st')) = b.
Proof.
  intros Hcall.
  induction fuel as [|fuel IH]; intros f curBB st below b v st' Hb Hbase;
    simpl; [discriminate|].
  unfold runBlock.
  destruct (fnBlocks f !! curBB) as [bb|]; [|discriminate]. simpl.
  destruct (evaluateStraightLine evaluateInstruction call (length below)
              (skipPHINodes bb) st) as [st1| |] eqn:Eline;
    simpl; try discriminate.
  assert (Hbase1 : frameBase below b st1)
    by (eapply evaluateStraightLine_frameBase; eassumption).
  destruct (getTerminator bb) as [termInst|]; [|discriminate].
  pose proof (dispatchTerminator_frameBase f curBB termInst st1 below b
                Hb Hbase1) as Hstep.
  destruct (dispatchTerminator evaluateOperand (length below) f curBB
              termInst st1) as [[bb' st2 | retVal st2]| |];
    simpl; try discriminate.
  - apply IH; assumption.
  - intros [= <- <-]. exact Hstep.
Qed.

End StackDiscipline.

Lemma callFunction_balanced evaluateOperand evaluateInstruction
    callExternalFunction :
  BalancedCall callExternalFunction ->
  OwnFrameOnly evaluateInstruction ->
  forall fuel,
    BalancedCall (callFunction evaluateOperand evaluateInstruction
                               callExternalFunction fuel).
Proof.
  intros Hext Hown.
  induction fuel as [|fuel IH]; intros f argValues st v st'; simpl;
    [discriminate|].
  destruct (isDeclaration f); [apply Hext|].
  rewrite enterFunction_arity.
  destruct (arityOK f argValues); simpl; [|discriminate].
  unfold runFunction.
  match goal with
  | |- context [getFrame ?fr ?s] => destruct (getFrame fr s) as [top| |]
  end; simpl; try discriminate.
  intros Hrun.
  assert (Hlen : length (stack st) = length (allocSizes st))
    by (unfold allocSizes; rewrite length_fmap; reflexivity).
  rewrite Hlen in Hrun.
  eapply (runLoop_restores evaluateOperand evaluateInstruction Hown _ IH)
    with (b := Z.of_N (usedSize (stackMem st))) in Hrun.
  - destruct Hrun as [Hs Hu]. split; [exact Hs | lia].
  - lia.
  - exists 0. unfold allocSizes. simpl.
    rewrite fmap_app. simpl. rewrite enteredFrame_allocation.
    split; [reflexivity | lia].
Qed.

Lemma allocateStackMem_frame frame size st fr :
  getFrame frame st = OK fr ->
  exists st',
    allocateStackMem frame size st = OK (usedSize (stackMem st), st') /\
    getFrame frame st' = OK (increaseAllocationSize size fr) /\
    usedSize (stackMem st') = usedSize (stackMem st) + size.
Proof.
  unfold getFrame, allocateStackMem, updateFrame.
  destruct (stack st !! frame) as [fr0|] eqn:E; [|discriminate].
  intros [= ->]. simpl. eexists. split; [reflexivity|]. simpl.
  rewrite list_lookup_insert_eq by (eapply lookup_lt_Some; exact E).
  auto.
Qed.

Lemma requestStackMem_total frame sizes :
  forall st fr,
    getFrame frame st = OK fr ->
    exists st' fr',
      requestStackMem frame sizes st = OK st' /\
      getFrame frame st' = OK fr' /\
      getAllocationSize fr' = getAllocationSize fr + sumSizes sizes /\
      usedSize (stackMem st') = usedSize (stackMem st) + sumSizes sizes.
Proof.
  unfold requestStackMem.
  induction sizes as [|size sizes IH]; intros st fr Hfr; simpl.
  - exists st, fr. repeat split; [exact Hfr | lia | lia].
  - destruct (allocateStackMem_frame frame size st fr Hfr)
      as (st1 & -> & Hfr1 & Hu1).
    simpl. destruct (IH st1 _ Hfr1) as (st' & fr' & Hrun & Hfr' & Ha & Hu).
    exists st', fr'. simpl in Ha. repeat split; [exact Hrun|exact Hfr'|lia|lia].
Qed.

(** C2.  Provided the external boundary leaves the stack as it found it and
    the instruction evaluator claims stack bytes for its own frame only:
    every invocation that returns, at any nesting depth, leaves the call
    stack with the frames it had (as many frames popped as pushed, each
    remaining frame with the claimed total it had) and the stack section's
    mark at its value before the call; a frame's recorded total after any
    sequence of requests is its old total plus the sum of the requested
    sizes, and so is the mark; and [popStack] removes the current frame and
    lowers the mark by exactly that frame's recorded total. *)
Theorem invocation_restores_stack
    (evaluateOperand : Interpreter -> FrameRef -> Value -> result DynamicValue)
    (evaluateInstruction :
       CallHook -> FrameRef -> Instruction -> Interpreter -> result Interpreter)
    (callExternalFunction : CallHook) :
  BalancedCall callExternalFunction ->
  OwnFrameOnly evaluateInstruction ->
  (forall fuel f argValues st v st',
      callFunction evaluateOperand evaluateInstruction callExternalFunction
                   fuel f argValues st = OK (v, st') ->
      length (stack st') = length (stack st) /\
      allocSizes st' = allocSizes st /\
      usedSize (stackMem st') = usedSize (stackMem st)) /\
  (forall frame sizes st fr,
      getFrame frame st = OK fr ->
      exists st' fr',
        requestStackMem frame sizes st = OK st' /\
        getFrame frame st' = OK fr' /\
        getAllocationSize fr' = getAllocationSize fr + sumSizes sizes /\
        usedSize (stackMem st') = usedSize (stackMem st) + sumSizes sizes) /\
  (forall st below top,
      stack st = below ++ [top] ->
      exists st',
        popStack st = OK st' /\ stack st' = below /\
        usedSize (stackMem st')
        = usedSize (stackMem st) - getAllocationSize top).
Proof.
  intros Hext Hown. split; [|split].
  - intros fuel f argValues st v st' Hrun.
    destruct (callFunction_balanced evaluateOperand evaluateInstruction
                callExternalFunction Hext Hown fuel f argValues st v st' Hrun)
      as [Hs Hu].
    split; [|split; assumption].
    unfold allocSizes in Hs. apply (f_equal length) in Hs.
    rewrite !length_fmap in Hs. exact Hs.
  - intros frame sizes st fr Hfr. apply requestStackMem_total. exact Hfr.
  - intros st below top Hst. eexists. split; [apply popStack_snoc; exact Hst|].
    simpl. auto.
Qed.

(** The reference collaborators meet the two provisos. *)
Lemma reference_external_balanced : BalancedCall Reference.callExternalFunction.
Proof.
  intros f argValues st v st'. unfold Reference.callExternalFunction.
  intros [= _ <-]. split; reflexivity.
Qed.

Lemma setStackMem_frameBase mem st below b :
  usedSize mem = usedSize (stackMem st) ->
  frameBase below b st -> frameBase below b (setStackMem mem st).
Proof.
  intros Hu (a & Hs & Hb). exists a. simpl. rewrite Hu. auto.
Qed.

Lemma write_usedSize a v mem mem' :
  write a v mem = OK mem' -> usedSize mem' = usedSize mem.
Proof.
  unfold write. destruct (a <? usedSize mem); [|discriminate].
  intros [= <-]. reflexivity.
Qed.

Lemma allocateStackMem_frameBase size st a st' below b :
  frameBase below b st ->
  allocateStackMem (length below) size st = OK (a, st') ->
  frameBase below b st'.
Proof.
  intros (a0 & Hsizes & Hb). unfold allocateStackMem.
  destruct (updateFrame (length below) (increaseAllocationSize size) st)
    as [st1| |] eqn:E; simpl; try discriminate.
  intros [= _ <-].
  destruct (updateFrame_top_sizes _ _ _ _ _ Hsizes E) as (top & Ha & Hs' & Hm).
  exists (a0 + size). unfold allocSizes in *. simpl in *.
  rewrite Hs', Ha, Hm. split; [reflexivity | lia].
Qed.

Lemma reference_binary_frameBase id op x y st st' below b :
  frameBase below b st ->
  (a ← Reference.evaluateOperand st (length below) x;
   b ← Reference.evaluateOperand st (length below) y;
   i ← getAsIntValue a;
   j ← getAsIntValue b;
   r ← Reference.binaryOp op i j;
   updateFrame (length below) (insertBinding id r) st) = OK st' ->
  frameBase below b st'.
Proof.
  intros Hbase Hrun.
  destruct (Reference.evaluateOperand st (length below) x) as [a| |];
    simpl in Hrun; try discriminate.
  destruct (Reference.evaluateOperand st (length below) y) as [c| |];
    simpl in Hrun; try discriminate.
  destruct (getAsIntValue a) as [i| |]; simpl in Hrun; try discriminate.
  destruct (getAsIntValue c) as [j| |]; simpl in Hrun; try discriminate.
  destruct (Reference.binaryOp op i j) as [r| |]; simpl in Hrun;
    try discriminate.
  eapply updateFrame_frameBase; [|exact Hbase|exact Hrun]. reflexivity.
Qed.

Lemma reference_call_frameBase m call id callee args st st' below b :
  BalancedCall call ->
  frameBase below b st ->
  match Reference.findFunction m callee with
  | None => Fatal CollaboratorFailure
  | Some f =>
      argValues ← Reference.evaluateOperands st (length below) args;
      '(r, st1) ← call f argValues st;
      updateFrame (length below) (insertBinding id r) st1
  end = OK st' ->
  frameBase below b st'.
Proof.
  intros Hcall Hbase Hrun.
  destruct (Reference.findFunction m callee) as [f|]; [|discriminate].
  destruct (Reference.evaluateOperands st (length below) args)
    as [argValues| |]; simpl in Hrun; try discriminate.
  destruct (call f argValues st) as [[r st1]| |] eqn:E; simpl in Hrun;
    try discriminate.
  eapply updateFrame_frameBase; [| |exact Hrun]; [reflexivity|].
  destruct (Hcall _ _ _ _ _ E) as [Hs Hu].
  destruct Hbase as (a & Hsizes & Hb). exists a. rewrite Hs, Hu. auto.
Qed.

Lemma reference_instructions_own_frame (m : Module) :
  OwnFrameOnly (Reference.evaluateInstruction m).
Proof.
  intros call inst st st' below b Hcall Hbase Hrun.
  destruct inst as [| id op operands | | | | | | |]; try discriminate.
  destruct operands as [|x [|y [|z rest]]].
  - (* no operand *)
    destruct op; discriminate.
  - (* one operand: alloca, load *)
    destruct op; try discriminate.
    + destruct x as [size| | |]; try discriminate. simpl in Hrun.
      destruct (allocateStackMem (length below) (Z.to_N (VAL size)) st)
        as [[a st1]| |] eqn:E; simpl in Hrun; try discriminate.
      eapply updateFrame_frameBase;
        [|eapply allocateStackMem_frameBase|exact Hrun];
        [reflexivity|exact Hbase|exact E].
    + simpl in Hrun.
      destruct (Reference.evaluateOperand st (length below) x) as [p| |];
        simpl in Hrun; try discriminate.
      match type of Hrun with
      | ?r ≫= _ = _ => destruct r as [v| |]
      end; simpl in Hrun; try discriminate.
      eapply updateFrame_frameBase; [|exact Hbase|exact Hrun]. reflexivity.
    + destruct x as [| |[?|callee]|]; try discriminate.
      eapply (reference_call_frameBase m call id callee []);
        [exact Hcall | exact Hbase | exact Hrun].
  - (* two operands: arithmetic, store, call *)
    assert (Hbinary :
      (a ← Reference.evaluateOperand st (length below) x;
       c ← Reference.evaluateOperand st (length below) y;
       i ← getAsIntValue a;
       j ← getAsIntValue c;
       r ← Reference.binaryOp op i j;
       updateFrame (length below) (insertBinding id r) st) = OK st' ->
      frameBase below b st')
      by (intros H; eapply reference_binary_frameBase; [exact Hbase|exact H]).
    destruct op; try (apply Hbinary; exact Hrun);
      try (apply Hbinary; destruct x as [| |[|]|]; exact Hrun).
    + (* store *)
      simpl in Hrun.
      destruct (Reference.evaluateOperand st (length below) x) as [v| |];
        simpl in Hrun; try discriminate.
      destruct (Reference.evaluateOperand st (length below) y) as [p| |];
        simpl in Hrun; try discriminate.
      destruct p as [| |[|] a]; try discriminate.
      * destruct (write a v (stackMem st)) as [mem| |] eqn:E; simpl in Hrun;
          try discriminate.
        injection Hrun as <-. apply setStackMem_frameBase; [|exact Hbase].
        eapply write_usedSize. exact E.
      * destruct (write a v (globalMem st)) as [mem| |] eqn:E; simpl in Hrun;
          try discriminate.
        injection Hrun as <-. exact Hbase.
    + (* call *)
      destruct x as [| |[?|callee]|]; try (apply Hbinary; exact Hrun).
      eapply (reference_call_frameBase m call id callee [y]);
        [exact Hcall | exact Hbase | exact Hrun].
  - (* three operands or more: call *)
    destruct op, x as [| |[?|callee]|]; try discriminate.
    eapply (reference_call_frameBase m call id callee (y :: z :: rest));
      [exact Hcall | exact Hbase | exact Hrun].
Qed.

(** ** The theorems at concrete inputs *)

(** [fact 5] is [120], through five nested invocations. *)
Example fact_5 :
  fst <$> Reference.invoke Samples.factModule 20 Samples.fact
            [IntValue (Samples.i32 5)] initialInterpreter
  = OK (IntValue (Samples.i32 120)).
Proof. vm_compute. reflexivity. Qed.

Lemma switch_selects_first_equal_case_witness :
  Reference.evaluateOperand Samples.atReturn 0%nat
    (ConstantInt (Samples.i32 2)) = OK (IntValue (Samples.i32 2)) /\
  exists destBB,
    dispatchTerminator Reference.evaluateOperand 0%nat Samples.fact 0%nat
      (SwitchInst (ConstantInt (Samples.i32 2)) 0%nat
         [(Samples.i32 1, 1%nat); (Samples.i32 2, 2%nat); (Samples.i32 2, 1%nat)])
      Samples.atReturn
    = (r ← switchToNewBasicBlock Reference.evaluateOperand 0%nat Samples.fact
             0%nat destBB Samples.atReturn;
       OK (Continue destBB r.2))
    /\ destBB = 2%nat.
Proof.
  split; [reflexivity|].
  destruct (switch_selects_first_equal_case Reference.evaluateOperand 0%nat
              Samples.fact 0%nat (ConstantInt (Samples.i32 2)) 0%nat
              [(Samples.i32 1, 1%nat); (Samples.i32 2, 2%nat);
               (Samples.i32 2, 1%nat)]
              Samples.atReturn (Samples.i32 2) eq_refl)
    as (destBB & Hrun & Hdest & _).
  exists destBB. split; [exact Hrun|].
  destruct Hdest as [(l1 & succ & l2 & Hcases & Hl1 & ->) | [Hall _]].
  - destruct l1 as [|c1 l1]; [discriminate|].
    injection Hcases as <- Hcases.
    destruct l1 as [|c2 l1].
    + injection Hcases as <- _. reflexivity.
    + exfalso. injection Hcases as <- _.
      inversion Hl1 as [|? ? _ Hl1']. inversion Hl1' as [|? ? Hne _].
      apply Hne. reflexivity.
  - exfalso. inversion Hall as [|? ? _ Hall']. inversion Hall' as [|? ? Hne _].
    apply Hne. reflexivity.
Defined.

Lemma return_evaluates_then_pops_witness :
  fnBlocks Samples.fact !! 1%nat
  = Some [ReturnInst (Some (ConstantInt (Samples.i32 1)))] /\
  stack Samples.atReturn = [] ++ [Samples.factFrame] /\
  runLoop Reference.evaluateOperand
    (Reference.evaluateInstruction Samples.factModule)
    (Reference.invoke Samples.factModule 0) 1 0%nat Samples.fact 1%nat
    Samples.atReturn
  = OK (IntValue (Samples.i32 1),
        mkInterpreter [] (mkMemorySection 16 ∅) emptySection ∅ ∅).
Proof.
  split; [reflexivity|]. split; [reflexivity|].
  apply (return_evaluates_then_pops Reference.evaluateOperand
           (Reference.evaluateInstruction Samples.factModule)
           (Reference.invoke Samples.factModule 0) 0 Samples.fact 1%nat
           [ReturnInst (Some (ConstantInt (Samples.i32 1)))]
           (Some (ConstantInt (Samples.i32 1)))
           Samples.atReturn Samples.atReturn [] Samples.factFrame);
    reflexivity.
Defined.

Lemma invoke_binds_fixed_and_variadic_witness :
  isDeclaration Samples.variadic2 = false /\
  ((length (fnArgs Samples.variadic2) < length Samples.fiveArgs)%nat /\
   isVarArg Samples.variadic2 = true) /\
  exists fr : StackFrame,
    enterFunction Samples.variadic2 Samples.fiveArgs initialInterpreter
    = OK (0%nat, setStack [fr] initialInterpreter) /\
    dom (bindings fr) = {[30; 31]} /\
    bindings fr !! 30 = Some (IntValue (Samples.i32 1)) /\
    bindings fr !! 31 = Some (IntValue (Samples.i32 2)) /\
    varargs fr = [IntValue (Samples.i32 3); IntValue (Samples.i32 4);
                  IntValue (Samples.i32 5)].
Proof.
  assert (Hpre : (length (fnArgs Samples.variadic2)
                  < length Samples.fiveArgs)%nat /\
                 isVarArg Samples.variadic2 = true)
    by (split; [simpl; lia | reflexivity]).
  split; [reflexivity|]. split; [exact Hpre|].
  destruct (invoke_binds_fixed_and_variadic Reference.evaluateOperand
              (Reference.evaluateInstruction Samples.factModule)
              Reference.callExternalFunction 0 Samples.variadic2
              Samples.fiveArgs initialInterpreter eq_refl (or_intror Hpre))
    as (fr & Henter & _ & _ & _ & _ & Hdom & Hlookup & Hvar & _).
  assert (Hnd : NoDup (fnArgs Samples.variadic2)).
  { simpl. apply NoDup_cons. split.
    - intros Hin. apply list_elem_of_singleton in Hin. discriminate.
    - apply NoDup_singleton. }
  exists fr. split; [exact Henter|]. split.
  { rewrite Hdom. simpl. rewrite (right_id_L ∅ (∪)). reflexivity. }
  split; [exact (Hlookup Hnd 0%nat 30 eq_refl)|].
  split; [exact (Hlookup Hnd 1%nat 31 eq_refl)|].
  exact Hvar.
Defined.

Lemma invoke_with_body_asserts_arity_witness :
  isDeclaration Samples.fact = false /\
  length ([] : list DynamicValue) <> length (fnArgs Samples.fact) /\
  Reference.invoke Samples.factModule 1 Samples.fact [] initialInterpreter
  = Fatal AssertionFailure.
Proof.
  split; [reflexivity|]. split; [discriminate|].
  apply (invoke_with_body_asserts_arity Reference.evaluateOperand
           (Reference.evaluateInstruction Samples.factModule)
           Reference.callExternalFunction 0 Samples.fact []
           initialInterpreter).
  - discriminate.
  - simpl. lia.
Defined.

(** C8 (as stated) fails: a declaration with one fixed parameter, not
    variadic, invoked with no argument goes to the external boundary; the
    assertion is not evaluated and the invocation returns. *)
Lemma invoke_declaration_skips_arity_check :
  isDeclaration Samples.externalDecl = true /\
  length ([] : list DynamicValue) <> length (fnArgs Samples.externalDecl) /\
  ~ ((length (fnArgs Samples.externalDecl)
      < length ([] : list DynamicValue))%nat /\
     isVarArg Samples.externalDecl = true) /\
  Reference.invoke Samples.factModule 1 Samples.externalDecl []
    initialInterpreter = OK (UndefValue, initialInterpreter) /\
  Reference.invoke Samples.factModule 1 Samples.externalDecl []
    initialInterpreter <> Fatal AssertionFailure.
Proof.
  split; [reflexivity|]. split; [discriminate|].
  split; [simpl; lia|]. split; [reflexivity | discriminate].
Qed.

Lemma entry_block_phis_are_skipped_witness :
  getFrame 0%nat Samples.inPhiEntry = OK (newFrame Samples.phiEntry) /\
  fnBlocks Samples.phiEntry !! 0%nat
  = Some ([PHINode 70 [(0%nat, ConstantInt (Samples.i32 5))]] ++ []
          ++ [ReturnInst (Some (LocalValue 70))]) /\
  runFunction Reference.evaluateOperand
    (Reference.evaluateInstruction Samples.factModule)
    (Reference.invoke Samples.factModule 0) 1 0%nat Samples.inPhiEntry
  = Fatal CollaboratorFailure.
Proof.
  split; [reflexivity|]. split; [reflexivity|].
  rewrite (entry_block_phis_are_skipped Reference.evaluateOperand
             (Reference.evaluateInstruction Samples.factModule)
             (Reference.invoke Samples.factModule 0) 0 0%nat
             Samples.inPhiEntry (newFrame Samples.phiEntry)
             [PHINode 70 [(0%nat, ConstantInt (Samples.i32 5))]] []
             (ReturnInst (Some (LocalValue 70)))).
  - reflexivity.
  - reflexivity.
  - reflexivity.
  - repeat constructor.
  - constructor.
  - discriminate.
  - reflexivity.
Defined.

(** [main] returning nothing exits with [0], returning [-1] with [-1]. *)
Example runMain_exit_codes :
  fst <$> runMain Reference.evaluateOperand
            (Reference.evaluateInstruction Samples.factModule)
            Reference.callExternalFunction 5 Samples.entry []
            initialInterpreter = OK 0%Z /\
  fst <$> runMain Reference.evaluateOperand
            (Reference.evaluateInstruction Samples.factModule)
            Reference.callExternalFunction 5 Samples.minusOne []
            initialInterpreter = OK (-1)%Z.
Proof. split; vm_compute; reflexivity. Qed.

(** The forward reference of [Samples.forwardModule] resolves: the cell of
    [A] holds the address of [B], which is declared after it. *)
Example forward_reference_resolves :
  (fun st => (cells (globalMem st) !! 0, cells (globalMem st) !! 8))
    <$> Reference.initializeProgram Samples.forwardModule initialInterpreter
  = OK (Some (PointerValue GlobalSpace 8),
        Some (IntValue (mkAPInt 64 7))).
Proof. vm_compute. reflexivity. Qed.

Lemma invocation_restores_stack_witness :
  BalancedCall Reference.callExternalFunction /\
  OwnFrameOnly (Reference.evaluateInstruction Samples.allocModule) /\
  exists st',
    Reference.invoke Samples.allocModule 20 Samples.allocRec
      [IntValue (Samples.i32 3)] Samples.inCaller
    = OK (IntValue (Samples.i32 3), st') /\
    length (stack st') = 1%nat /\
    allocSizes st' = [16] /\
    usedSize (stackMem st') = 16.
Proof.
  split; [exact reference_external_balanced|].
  split; [exact (reference_instructions_own_frame Samples.allocModule)|].
  destruct (Reference.invoke Samples.allocModule 20 Samples.allocRec
              [IntValue (Samples.i32 3)] Samples.inCaller)
    as [[v st']| |] eqn:Hrun.
  - assert (Hv : v = IntValue (Samples.i32 3)).
    { apply (f_equal (fmap fst)) in Hrun. vm_compute in Hrun.
      injection Hrun as <-. reflexivity. }
    subst v. exists st'. split; [reflexivity|].
    destruct (invocation_restores_stack Reference.evaluateOperand
                (Reference.evaluateInstruction Samples.allocModule)
                Reference.callExternalFunction reference_external_balanced
                (reference_instructions_own_frame Samples.allocModule))
      as (Hinvoke & _ & _).
    exact (Hinvoke 20%nat Samples.allocRec [IntValue (Samples.i32 3)]
             Samples.inCaller _ st' Hrun).
  - exfalso. vm_compute in Hrun. discriminate.
  - exfalso. vm_compute in Hrun. discriminate.
Defined.


(** * Further properties of the engine *)

(** ** Branches and unsupported terminators *)

(** X1.  An unconditional branch enters its successor without evaluating
    anything; a conditional branch whose condition evaluates to an integer
    enters successor 1 when the value is zero and successor 0 otherwise,
    whatever the width of the integer; the loop continues at that block. *)
Theorem branch_follows_truth_value
    (evaluateOperand : Interpreter -> FrameRef -> Value -> result DynamicValue)
    (frame : FrameRef) (f : Function) (curBB succ0 succ1 : BlockRef)
    (c : Value) (st : Interpreter) (condInt : APInt) :
  evaluateOperand st frame c = OK (IntValue condInt) ->
  let destBB := if decide (VAL condInt = 0%Z) then succ1 else succ0 in
  dispatchTerminator evaluateOperand frame f curBB
    (BranchInst succ0 (Some (c, succ1))) st
  = (r ← switchToNewBasicBlock evaluateOperand frame f curBB destBB st;
     OK (Continue destBB r.2)) /\
  dispatchTerminator evaluateOperand frame f curBB (BranchInst succ0 None) st
  = (r ← switchToNewBasicBlock evaluateOperand frame f curBB succ0 st;
     OK (Continue succ0 r.2)).
Proof.
  intros Hc destBB.
  assert (Hgen : forall d,
    ('(bb, st') ← switchToNewBasicBlock evaluateOperand frame f curBB d st;
     OK (Continue bb st'))
    = (r ← switchToNewBasicBlock evaluateOperand frame f curBB d st;
       OK (Continue d r.2))).
  { intros d.
    destruct (switchToNewBasicBlock evaluateOperand frame f curBB d st)
      as [[bb st']| |] eqn:E; simpl; try reflexivity.
    apply switchToNewBasicBlock_dest in E. subst bb. reflexivity. }
  split.
  - unfold dispatchTerminator. rewrite Hc. simpl.
    replace (if getBoolValue condInt then succ0 else succ1) with destBB.
    + apply Hgen.
    + unfold destBB, getBoolValue.
      destruct (decide (VAL condInt = 0%Z)) as [->|Hne]; [reflexivity|].
      apply Z.eqb_neq in Hne. rewrite Hne. reflexivity.
  - unfold dispatchTerminator. simpl. apply Hgen.
Qed.

Lemma branch_follows_truth_value_witness :
  Reference.evaluateOperand Samples.atReturn 0%nat
    (ConstantInt (mkAPInt 8 0)) = OK (IntValue (mkAPInt 8 0)) /\
  dispatchTerminator Reference.evaluateOperand 0%nat Samples.fact 0%nat
    (BranchInst 1%nat (Some (ConstantInt (mkAPInt 8 0), 2%nat)))
    Samples.atReturn
  = (r ← switchToNewBasicBlock Reference.evaluateOperand 0%nat Samples.fact
           0%nat 2%nat Samples.atReturn;
     OK (Continue 2%nat r.2)).
Proof.
  split; [reflexivity|].
  apply (branch_follows_truth_value Reference.evaluateOperand 0%nat
           Samples.fact 0%nat 1%nat 2%nat (ConstantInt (mkAPInt 8 0))
           Samples.atReturn (mkAPInt 8 0) eq_refl).
Defined.

(** X2.  A block whose terminator is none of branch, return and switch
    (unreachable, indirect branch, invoke, resume) runs its straight-line
    instructions and is then fatal: the loop neither returns a value nor
    goes on to another block, whatever the fuel. *)
Theorem unsupported_terminator_is_fatal
    (evaluateOperand : Interpreter -> FrameRef -> Value -> result DynamicValue)
    (evaluateInstruction :
       CallHook -> FrameRef -> Instruction -> Interpreter -> result Interpreter)
    (call : CallHook) (fuel : nat) (frame : FrameRef) (f : Function)
    (curBB : BlockRef) (bb : BasicBlock) (termInst : Instruction)
    (st : Interpreter) :
  fnBlocks f !! curBB = Some bb ->
  getTerminator bb = Some termInst ->
  isSupportedTerminator termInst = false ->
  runLoop evaluateOperand evaluateInstruction call (S fuel) frame f curBB st
  = (evaluateStraightLine evaluateInstruction call frame (skipPHINodes bb) st
     ≫= fun _ => Fatal UnreachableExecuted) /\
  forall r, runLoop evaluateOperand evaluateInstruction call fuel frame f
                    curBB st <> OK r.
Proof.
  intros Hbb Hterm Hunsupported.
  assert (Hstep : forall n,
    runLoop evaluateOperand evaluateInstruction call (S n) frame f curBB st
    = (evaluateStraightLine evaluateInstruction call frame (skipPHINodes bb) st
       ≫= fun _ => Fatal UnreachableExecuted)).
  { intros n. simpl. unfold runBlock. rewrite Hbb, Hterm.
    destruct (evaluateStraightLine evaluateInstruction call frame
                (skipPHINodes bb) st) as [st1| |]; simpl; try reflexivity.
    assert (Hterminator : isTerminator termInst = true).
    { unfold getTerminator in Hterm. destruct (last bb) as [i|]; [|discriminate].
      destruct (isTerminator i) eqn:E; [|discriminate]. congruence. }
    destruct termInst; try discriminate; reflexivity. }
  split; [apply Hstep|].
  intros r. destruct fuel as [|n]; [discriminate|].
  rewrite Hstep.
  destruct (evaluateStraightLine evaluateInstruction call frame
              (skipPHINodes bb) st); discriminate.
Qed.

Lemma unsupported_terminator_is_fatal_witness :
  fnBlocks (mkFunction 14 (FunctionTy false) [] false [[UnreachableInst]])
    !! 0%nat = Some [UnreachableInst] /\
  runLoop Reference.evaluateOperand
    (Reference.evaluateInstruction Samples.factModule)
    (Reference.invoke Samples.factModule 0) 3 0%nat
    (mkFunction 14 (FunctionTy false) [] false [[UnreachableInst]]) 0%nat
    initialInterpreter
  = Fatal UnreachableExecuted.
Proof.
  split; [reflexivity|].
  apply (unsupported_terminator_is_fatal Reference.evaluateOperand
           (Reference.evaluateInstruction Samples.factModule)
           (Reference.invoke Samples.factModule 0) 2 0%nat
           (mkFunction 14 (FunctionTy false) [] false [[UnreachableInst]])
           0%nat [UnreachableInst] UnreachableInst initialInterpreter);
    reflexivity.
Defined.

(** ** The entry point *)

(** X3.  [runMain] always invokes with an empty argument sequence, so an
    entry function with a body that declares at least one parameter fails
    the arity assertion of [callFunction], whatever [mainArgs] holds. *)
Theorem runMain_rejects_main_with_parameters
    (evaluateOperand : Interpreter -> FrameRef -> Value -> result DynamicValue)
    (evaluateInstruction :
       CallHook -> FrameRef -> Instruction -> Interpreter -> result Interpreter)
    (callExternalFunction : CallHook)
    (fuel : nat) (mainFn : Function) (mainArgs : list string)
    (st : Interpreter) :
  isDeclaration mainFn = false ->
  fnArgs mainFn <> [] ->
  runMain evaluateOperand evaluateInstruction callExternalFunction (S fuel)
          mainFn mainArgs st
  = Fatal AssertionFailure.
Proof.
  intros Hbody Hargs. unfold runMain. simpl. rewrite Hbody.
  rewrite enterFunction_arity.
  destruct (arityOK mainFn []) eqn:Hok; [|reflexivity].
  apply arityOK_true in Hok. simpl in Hok.
  destruct (fnArgs mainFn); [congruence|]. simpl in Hok.
  destruct Hok as [Hok | [Hok _]]; [discriminate | lia].
Qed.

Lemma runMain_rejects_main_with_parameters_witness :
  isDeclaration Samples.fact = false /\ fnArgs Samples.fact <> [] /\
  runMain Reference.evaluateOperand
    (Reference.evaluateInstruction Samples.factModule)
    Reference.callExternalFunction 10 Samples.fact ["5"%string]
    initialInterpreter
  = Fatal AssertionFailure.
Proof.
  split; [reflexivity|]. split; [discriminate|].
  apply (runMain_rejects_main_with_parameters Reference.evaluateOperand
           (Reference.evaluateInstruction Samples.factModule)
           Reference.callExternalFunction 9 Samples.fact ["5"%string]
           initialInterpreter); [reflexivity | discriminate].
Defined.

(** ** The life of a frame *)

Lemma allocateStackMem_top size st below top :
  stack st = below ++ [top] ->
  allocateStackMem (length below) size st
  = OK (usedSize (stackMem st),
        mkInterpreter (below ++ [increaseAllocationSize size top])
          (mkMemorySection (usedSize (stackMem st) + size)
                           (cells (stackMem st)))
          (globalMem st) (globalEnv st) (funPtrMap st)).
Proof.
  intros Hst. unfold allocateStackMem.
  rewrite (updateFrame_top _ _ _ _ Hst). reflexivity.
Qed.

Lemma requestStackMem_top sizes :
  forall st below top,
    stack st = below ++ [top] ->
    requestStackMem (length below) sizes st
    = OK (mkInterpreter
            (below ++ [mkStackFrame (getFunction top) (bindings top)
                         (varargs top)
                         (getAllocationSize top + sumSizes sizes)])
            (mkMemorySection (usedSize (stackMem st) + sumSizes sizes)
                             (cells (stackMem st)))
            (globalMem st) (globalEnv st) (funPtrMap st)).
Proof.
  unfold requestStackMem.
  induction sizes as [|size sizes IH]; intros st below top Hst.
  - simpl. rewrite !N.add_0_r. destruct st as [s [u c] g e p], top; simpl in *.
    subst s. reflexivity.
  - cbn [foldM]. rewrite (allocateStackMem_top _ _ _ _ Hst). simpl.
    erewrite IH; [|reflexivity]. simpl.
    rewrite <- !N.add_assoc. reflexivity.
Qed.

(** X4.  Pushing a frame, letting it claim stack memory any number of times
    and popping it gives back the interpreter exactly as it was before the
    push: the stack is the old stack and the stack section has its old mark
    and contents. *)
Theorem frame_lifecycle_round_trip (f : Function) (sizes : list N)
    (st : Interpreter) :
  exists st2,
    requestStackMem (createFrame f st).1 sizes (createFrame f st).2 = OK st2 /\
    getFrame (createFrame f st).1 st2
    = OK (mkStackFrame f ∅ [] (sumSizes sizes)) /\
    usedSize (stackMem st2) = usedSize (stackMem st) + sumSizes sizes /\
    popStack st2 = OK st.
Proof.
  unfold createFrame. simpl.
  eexists. split.
  { apply (requestStackMem_top sizes _ (stack st) (newFrame f)). reflexivity. }
  simpl. split; [|split].
  - unfold getFrame. simpl.
    rewrite lookup_app_r, Nat.sub_diag by lia. reflexivity.
  - reflexivity.
  - erewrite popStack_snoc; [|reflexivity]. simpl.
    destruct st as [s [u c] g e p]. simpl. f_equal. f_equal. f_equal. lia.
Qed.

Lemma allocateEach_addresses frame sizes :
  forall st fr,
    getFrame frame st = OK fr ->
    exists addrs st',
      allocateEach frame sizes st = OK (addrs, st') /\
      length addrs = length sizes /\
      (forall k a,
          addrs !! k = Some a ->
          a = usedSize (stackMem st) + sumSizes (take k sizes)) /\
      usedSize (stackMem st') = usedSize (stackMem st) + sumSizes sizes.
Proof.
  induction sizes as [|size sizes IH]; intros st fr Hfr; simpl.
  - exists [], st. repeat split; [|lia]. intros k a Hk. discriminate.
  - destruct (allocateStackMem_frame frame size st fr Hfr)
      as (st1 & -> & Hfr1 & Hu1). simpl.
    destruct (IH st1 _ Hfr1) as (addrs & st' & -> & Hlen & Haddr & Hu).
    simpl. exists (usedSize (stackMem st) :: addrs), st'.
    split; [reflexivity|]. split; [simpl; lia|]. split; [|lia].
    intros [|k] a Hk; simpl in *.
    + injection Hk as <-. lia.
    + rewrite (Haddr k a Hk). lia.
Qed.

(** X5.  The stack allocations of a frame are laid out back to back from the
    mark of the stack section: the [k]-th request gets the old mark plus the
    sizes of the requests before it, so two requests never share a byte. *)
Theorem stack_allocations_are_adjacent (frame : FrameRef) (sizes : list N)
    (st : Interpreter) (fr : StackFrame) :
  getFrame frame st = OK fr ->
  exists addrs st',
    allocateEach frame sizes st = OK (addrs, st') /\
    length addrs = length sizes /\
    (forall k a,
        addrs !! k = Some a ->
        a = usedSize (stackMem st) + sumSizes (take k sizes)) /\
    (forall j k a b size,
        (j < k)%nat -> addrs !! j = Some a -> addrs !! k = Some b ->
        sizes !! j = Some size -> a + size <= b) /\
    usedSize (stackMem st') = usedSize (stackMem st) + sumSizes sizes.
Proof.
  intros Hfr.
  destruct (allocateEach_addresses frame sizes st fr Hfr)
    as (addrs & st' & Hrun & Hlen & Haddr & Hu).
  exists addrs, st'. repeat split; try assumption.
  intros j k a b size Hjk Ha Hb Hsize.
  rewrite (Haddr j a Ha), (Haddr k b Hb).
  assert (Hsum : sumSizes (take j sizes) + size <= sumSizes (take k sizes)).
  { clear -Hjk Hsize. revert j k Hjk Hsize.
    induction sizes as [|s sizes IH]; intros j k Hjk Hsize; [discriminate|].
    destruct k as [|k]; [lia|]. destruct j as [|j]; simpl in *.
    - injection Hsize as ->. lia.
    - specialize (IH j k ltac:(lia) Hsize). lia. }
  lia.
Qed.

Lemma stack_allocations_are_adjacent_witness :
  getFrame 0%nat Samples.inCaller = OK (mkStackFrame Samples.entry ∅ [] 16) /\
  exists st',
    allocateEach 0%nat [8; 4; 12] Samples.inCaller = OK ([16; 24; 28], st') /\
    usedSize (stackMem st') = 40.
Proof.
  split; [reflexivity|].
  destruct (stack_allocations_are_adjacent 0%nat [8; 4; 12] Samples.inCaller
              _ eq_refl) as (addrs & st' & Hrun & Hlen & Haddr & _ & Hu).
  exists st'. split; [|exact Hu].
  destruct addrs as [|a [|b [|c [|? ?]]]]; try discriminate.
  rewrite (Haddr 0%nat a eq_refl), (Haddr 1%nat b eq_refl),
    (Haddr 2%nat c eq_refl) in Hrun.
  exact Hrun.
Defined.

(** X6.  Under the provisos of the stack discipline, the stack memory of a
    finished invocation is handed out again: after the invocation returns,
    a request for stack memory gets the address it would have got before
    the call. *)
Theorem stack_memory_is_reused_after_return
    (evaluateOperand : Interpreter -> FrameRef -> Value -> result DynamicValue)
    (evaluateInstruction :
       CallHook -> FrameRef -> Instruction -> Interpreter -> result Interpreter)
    (callExternalFunction : CallHook)
    (fuel : nat) (f : Function) (argValues : list DynamicValue)
    (st st' : Interpreter) (v : DynamicValue) (frame : FrameRef) (size : N) :
  BalancedCall callExternalFunction ->
  OwnFrameOnly evaluateInstruction ->
  callFunction evaluateOperand evaluateInstruction callExternalFunction
               fuel f argValues st = OK (v, st') ->
  fst <$> allocateStackMem frame size st'
  = fst <$> allocateStackMem frame size st.
Proof.
  intros Hext Hown Hrun.
  destruct (callFunction_balanced evaluateOperand evaluateInstruction
              callExternalFunction Hext Hown fuel f argValues st v st' Hrun)
    as [Hs Hu].
  assert (Hlen : length (stack st') = length (stack st)).
  { unfold allocSizes in Hs. apply (f_equal length) in Hs.
    rewrite !length_fmap in Hs. exact Hs. }
  unfold allocateStackMem, updateFrame.
  destruct (stack st !! frame) as [fr|] eqn:E;
    destruct (stack st' !! frame) as [fr'|] eqn:E'; simpl.
  - rewrite Hu. reflexivity.
  - apply lookup_lt_Some in E. apply lookup_ge_None in E'. lia.
  - apply lookup_lt_Some in E'. apply lookup_ge_None in E. lia.
  - reflexivity.
Qed.

Lemma stack_memory_is_reused_after_return_witness :
  BalancedCall Reference.callExternalFunction /\
  OwnFrameOnly (Reference.evaluateInstruction Samples.allocModule) /\
  exists st',
    Reference.invoke Samples.allocModule 20 Samples.allocRec
      [IntValue (Samples.i32 3)] Samples.inCaller
    = OK (IntValue (Samples.i32 3), st') /\
    fst <$> allocateStackMem 0%nat 8 st' = OK 16.
Proof.
  split; [exact reference_external_balanced|].
  split; [exact (reference_instructions_own_frame Samples.allocModule)|].
  destruct (Reference.invoke Samples.allocModule 20 Samples.allocRec
              [IntValue (Samples.i32 3)] Samples.inCaller)
    as [[v st']| |] eqn:Hrun.
  - assert (Hv : v = IntValue (Samples.i32 3)).
    { apply (f_equal (fmap fst)) in Hrun. vm_compute in Hrun.
      injection Hrun as <-. reflexivity. }
    subst v. exists st'. split; [reflexivity|].
    rewrite (stack_memory_is_reused_after_return Reference.evaluateOperand
               (Reference.evaluateInstruction Samples.allocModule)
               Reference.callExternalFunction 20 Samples.allocRec
               [IntValue (Samples.i32 3)] Samples.inCaller st' _ 0%nat 8
               reference_external_balanced
               (reference_instructions_own_frame Samples.allocModule) Hrun).
    reflexivity.
  - exfalso. vm_compute in Hrun. discriminate.
  - exfalso. vm_compute in Hrun. discriminate.
Defined.

(** ** A PHI node without an entry for the predecessor *)

Lemma collectPhiValues_missing evaluateOperand frame prevBB st insts :
  forall l1 id incoming l2 vals,
    leadingPhis insts = l1 ++ (id, incoming) :: l2 ->
    Forall2 (evaluatedIn evaluateOperand st frame prevBB) l1 vals ->
    getBasicBlockIndex incoming prevBB = None ->
    collectPhiValues evaluateOperand frame prevBB insts st
    = Fatal AssertionFailure.
Proof.
  induction insts as [|i insts IH]; intros l1 id incoming l2 vals Hlead Hvals Hidx;
    simpl in *.
  - destruct l1; discriminate.
  - destruct i; try (destruct l1; discriminate).
    destruct l1 as [|[id1 inc1] l1]; simpl in Hlead.
    + injection Hlead as -> -> _. rewrite Hidx. reflexivity.
    + injection Hlead as -> -> Hlead.
      inversion Hvals as [|phi v phis vs (operand & Hinc & Hev) Hrest]; subst.
      unfold incomingFor in Hinc. simpl in Hinc.
      destruct (getBasicBlockIndex inc1 prevBB) as [idx|]; [|discriminate].
      simpl in Hinc. rewrite Hinc, Hev. simpl.
      rewrite (IH _ _ _ _ _ Hlead Hrest Hidx). reflexivity.
Qed.

(** X7.  Entering a block from a predecessor that one of its leading PHI
    nodes has no entry for fails the assertion, when the operands of the
    PHI nodes before it evaluate: no binding is committed, not even for the
    PHI nodes that do have an entry. *)
Theorem phi_without_entry_for_predecessor_asserts
    (evaluateOperand : Interpreter -> FrameRef -> Value -> result DynamicValue)
    (frame : FrameRef) (f : Function) (curBB destBB : BlockRef)
    (insts : BasicBlock) (st : Interpreter)
    (l1 l2 : list (ValueId * list (BlockRef * Value)))
    (id : ValueId) (incoming : list (BlockRef * Value))
    (vals : list DynamicValue) :
  fnBlocks f !! destBB = Some insts ->
  leadingPhis insts = l1 ++ (id, incoming) :: l2 ->
  Forall2 (evaluatedIn evaluateOperand st frame curBB) l1 vals ->
  Forall (fun entry => entry.1 <> curBB) incoming ->
  switchToNewBasicBlock evaluateOperand frame f curBB destBB st
  = Fatal AssertionFailure.
Proof.
  intros Hbb Hlead Hvals Hnone.
  unfold switchToNewBasicBlock. rewrite Hbb.
  erewrite collectPhiValues_missing; [reflexivity|exact Hlead|exact Hvals|].
  clear -Hnone. induction Hnone as [|[b v] incoming Hb _ IH]; simpl.
  - reflexivity.
  - simpl in Hb. apply Nat.eqb_neq in Hb. rewrite Hb, IH. reflexivity.
Qed.

Lemma phi_without_entry_for_predecessor_asserts_witness :
  fnBlocks Samples.swapLoop !! 1%nat
  = Some [ PHINode 22 [(0%nat, LocalValue 20); (1%nat, LocalValue 23)];
           PHINode 23 [(0%nat, LocalValue 21); (1%nat, LocalValue 22)];
           BranchInst 1%nat None ] /\
  switchToNewBasicBlock Reference.evaluateOperand 0%nat Samples.swapLoop
    5%nat 1%nat Samples.swapBefore
  = Fatal AssertionFailure.
Proof.
  split; [reflexivity|].
  apply (phi_without_entry_for_predecessor_asserts Reference.evaluateOperand
           0%nat Samples.swapLoop 5%nat 1%nat
           [ PHINode 22 [(0%nat, LocalValue 20); (1%nat, LocalValue 23)];
             PHINode 23 [(0%nat, LocalValue 21); (1%nat, LocalValue 22)];
             BranchInst 1%nat None ]
           Samples.swapBefore
           [] [(23, [(0%nat, LocalValue 21); (1%nat, LocalValue 22)])]
           22 [(0%nat, LocalValue 20); (1%nat, LocalValue 23)] []).
  - reflexivity.
  - reflexivity.
  - constructor.
  - repeat constructor; discriminate.
Defined.


(** ** What global initialisation builds *)

Lemma allocateGlobal_other_state getTypeAllocSize g st st' :
  allocateGlobal getTypeAllocSize g st = OK st' ->
  stack st' = stack st /\ stackMem st' = stackMem st /\
  funPtrMap st' = funPtrMap st /\
  cells (globalMem st') = cells (globalMem st) /\
  usedSize (globalMem st')
  = usedSize (globalMem st) + getTypeAllocSize (getType (GVariable g)) /\
  forall k : FunctionId, globalEnv st' !! inr k = globalEnv st !! inr k.
Proof.
  intros H. apply allocateGlobal_inv in H as [_ ->]. simpl.
  repeat split. intros k. rewrite map_insert_new_lookup.
  destruct (globalEnv st !! inr k); [reflexivity|].
  rewrite decide_False; [reflexivity | discriminate].
Qed.

Lemma allocateGlobals_other_state getTypeAllocSize gs :
  forall st st',
    foldM (allocateGlobal getTypeAllocSize) gs st = OK st' ->
    stack st' = stack st /\ stackMem st' = stackMem st /\
    funPtrMap st' = funPtrMap st /\
    cells (globalMem st') = cells (globalMem st) /\
    usedSize (globalMem st')
    = usedSize (globalMem st) + totalAllocSize getTypeAllocSize gs /\
    forall k : FunctionId, globalEnv st' !! inr k = globalEnv st !! inr k.
Proof.
  induction gs as [|g gs IH]; intros st st'; simpl.
  - intros [= <-]. repeat split. lia.
  - destruct (allocateGlobal getTypeAllocSize g st) as [st1| |] eqn:E;
      simpl; try discriminate.
    intros Hrun.
    destruct (allocateGlobal_other_state _ _ _ _ E)
      as (H1 & H2 & H3 & H4 & H5 & H6).
    destruct (IH _ _ Hrun) as (I1 & I2 & I3 & I4 & I5 & I6).
    rewrite I1, I2, I3, I4, I5, H1, H2, H3, H4, H5.
    repeat split; [lia|]. intros k. rewrite I6, H6. reflexivity.
Qed.

Lemma initializeGlobal_other_state evaluateConstant g st st' :
  initializeGlobal evaluateConstant g st = OK st' ->
  stack st' = stack st /\ stackMem st' = stackMem st /\
  funPtrMap st' = funPtrMap st /\ globalEnv st' = globalEnv st /\
  usedSize (globalMem st') = usedSize (globalMem st).
Proof.
  unfold initializeGlobal.
  destruct (globalEnv st !! inl (gvId g)) as [addr|]; [|discriminate].
  destruct (gvInitializer g) as [init|]; [|intros [= <-]; auto].
  destruct (evaluateConstant st init) as [v| |]; simpl; try discriminate.
  destruct (write addr v (globalMem st)) as [mem| |] eqn:E; simpl;
    try discriminate.
  intros [= <-]. simpl. repeat split. eapply write_usedSize. exact E.
Qed.

Lemma initializeGlobals_other_state evaluateConstant gs :
  forall st st',
    foldM (initializeGlobal evaluateConstant) gs st = OK st' ->
    stack st' = stack st /\ stackMem st' = stackMem st /\
    funPtrMap st' = funPtrMap st /\ globalEnv st' = globalEnv st /\
    usedSize (globalMem st') = usedSize (globalMem st).
Proof.
  induction gs as [|g gs IH]; intros st st'; simpl.
  - intros [= <-]. auto.
  - destruct (initializeGlobal evaluateConstant g st) as [st1| |] eqn:E;
      simpl; try discriminate.
    intros Hrun.
    destruct (initializeGlobal_other_state _ _ _ _ E) as (H1 & H2 & H3 & H4 & H5).
    destruct (IH _ _ Hrun) as (I1 & I2 & I3 & I4 & I5).
    rewrite I1, I2, I3, I4, I5. auto.
Qed.

Lemma registerFunction_state getTypeAllocSize f st st' :
  registerFunction getTypeAllocSize f st = OK st' ->
  stack st' = stack st /\ stackMem st' = stackMem st /\
  cells (globalMem st') = cells (globalMem st) /\
  usedSize (globalMem st')
  = usedSize (globalMem st) + getTypeAllocSize (getType (GFunction f)) /\
  globalEnv st'
  = map_insert_new (inr (fnId f)) (usedSize (globalMem st)) (globalEnv st) /\
  funPtrMap st'
  = map_insert_new (usedSize (globalMem st)) (fnId f) (funPtrMap st).
Proof.
  rewrite registerFunction_pointer_sized. intros [= <-]. repeat split.
Qed.

Lemma registerFunctions_state getTypeAllocSize fs :
  forall st st',
    foldM (registerFunction getTypeAllocSize) fs st = OK st' ->
    stack st' = stack st /\ stackMem st' = stackMem st /\
    cells (globalMem st') = cells (globalMem st) /\
    usedSize (globalMem st')
    = usedSize (globalMem st) + totalFunctionSize getTypeAllocSize fs.
Proof.
  induction fs as [|f fs IH]; intros st st'; simpl.
  - intros [= <-]. repeat split. lia.
  - destruct (registerFunction getTypeAllocSize f st) as [st1| |] eqn:E;
      simpl; try discriminate.
    intros Hrun.
    destruct (registerFunction_state _ _ _ _ E) as (H1 & H2 & H3 & H4 & _).
    destruct (IH _ _ Hrun) as (I1 & I2 & I3 & I4).
    rewrite I1, I2, I3, I4, H1, H2, H3, H4. repeat split. lia.
Qed.

(** X8.  [evaluateGlobals] works on the global section and the two maps
    only: the call stack and the stack section are as before, and no entry
    of the global-entity map or of the function-address map is removed or
    changed. *)
Theorem evaluateGlobals_preserves_stack_and_entries
    (getTypeAllocSize : LType -> N)
    (evaluateConstant : Interpreter -> Value -> result DynamicValue)
    (m : Module) (st st' : Interpreter) :
  evaluateGlobals getTypeAllocSize evaluateConstant m st = OK st' ->
  stack st' = stack st /\ stackMem st' = stackMem st /\
  (forall k a, globalEnv st !! k = Some a -> globalEnv st' !! k = Some a) /\
  (forall a f, funPtrMap st !! a = Some f -> funPtrMap st' !! a = Some f).
Proof.
  intros Hrun.
  destruct (evaluateGlobals_keeps_entries _ _ _ _ _ Hrun) as [Henv Hfun].
  unfold evaluateGlobals in Hrun.
  destruct (foldM (allocateGlobal getTypeAllocSize) (globals m) _)
    as [st1| |] eqn:E1; simpl in Hrun; try discriminate.
  destruct (foldM (initializeGlobal evaluateConstant) (globals m) st1)
    as [st2| |] eqn:E2; simpl in Hrun; try discriminate.
  destruct (allocateGlobals_other_state _ _ _ _ E1) as (A1 & A2 & _).
  destruct (initializeGlobals_other_state _ _ _ _ E2) as (B1 & B2 & _).
  destruct (registerFunctions_state _ _ _ _ Hrun) as (C1 & C2 & _).
  rewrite C1, C2, B1, B2, A1, A2. auto.
Qed.

Lemma evaluateGlobals_preserves_stack_and_entries_witness :
  exists st',
    Reference.initializeProgram Samples.forwardModule Samples.inCaller = OK st' /\
    stack st' = stack Samples.inCaller /\
    stackMem st' = stackMem Samples.inCaller.
Proof.
  destruct (Reference.initializeProgram Samples.forwardModule Samples.inCaller)
    as [st'| |] eqn:Hrun.
  - exists st'. split; [reflexivity|].
    destruct (evaluateGlobals_preserves_stack_and_entries
                Reference.getTypeAllocSize Reference.evaluateConstant
                Samples.forwardModule Samples.inCaller st' Hrun)
      as (Hs & Hm & _).
    split; assumption.
  - exfalso. vm_compute in Hrun. discriminate.
  - exfalso. vm_compute in Hrun. discriminate.
Defined.


Lemma NoDup_app_middle {A B : Type} (key : A -> B) (l1 : list A) (x : A)
    (l2 : list A) :
  NoDup (key <$> (l1 ++ x :: l2)) -> key x ∉ key <$> l1.
Proof.
  rewrite fmap_app. simpl. intros H. apply NoDup_app in H as (_ & H & _).
  intros Hin. apply (H _ Hin). apply elem_of_cons. auto.
Qed.

Lemma registerFunctions_fresh getTypeAllocSize l1 f l2 :
  forall st st',
    foldM (registerFunction getTypeAllocSize) (l1 ++ f :: l2) st = OK st' ->
    globalEnv st !! inr (fnId f) = None ->
    fnId f ∉ fnId <$> l1 ->
    globalEnv st' !! inr (fnId f)
    = Some (usedSize (globalMem st) + totalFunctionSize getTypeAllocSize l1).
Proof.
  induction l1 as [|h l1 IH]; intros st st'; simpl.
  - destruct (registerFunction getTypeAllocSize f st) as [st1| |] eqn:E;
      simpl; try discriminate.
    intros Hrun Hnone _.
    destruct (registerFunctions_keep _ _ _ _ Hrun) as [Hkeep _].
    apply Hkeep. apply registerFunction_inv in E as [-> _].
    rewrite map_insert_new_lookup, Hnone, decide_True by reflexivity.
    f_equal. lia.
  - destruct (registerFunction getTypeAllocSize h st) as [st1| |] eqn:E;
      simpl; try discriminate.
    intros Hrun Hnone Hnotin. apply not_elem_of_cons in Hnotin as [Hne Hnotin].
    destruct (registerFunction_state _ _ _ _ E) as (_ & _ & _ & Hu & Henv & _).
    rewrite (IH _ _ Hrun); [| |exact Hnotin].
    + rewrite Hu. f_equal. lia.
    + rewrite Henv, map_insert_new_lookup, Hnone.
      rewrite decide_False; [reflexivity|]. congruence.
Qed.

(** The state in which the third loop of [evaluateGlobals] starts. *)
Lemma evaluateGlobals_phases getTypeAllocSize evaluateConstant m st st' :
  evaluateGlobals getTypeAllocSize evaluateConstant m st = OK st' ->
  exists st1 st2,
    foldM (allocateGlobal getTypeAllocSize) (globals m)
          (setGlobalMem (clear (globalMem st)) st) = OK st1 /\
    foldM (initializeGlobal evaluateConstant) (globals m) st1 = OK st2 /\
    foldM (registerFunction getTypeAllocSize) (functions m) st2 = OK st' /\
    globalEnv st2 = globalEnv st1 /\
    funPtrMap st2 = funPtrMap st /\
    usedSize (globalMem st2) = totalAllocSize getTypeAllocSize (globals m).
Proof.
  unfold evaluateGlobals. intros Hrun.
  destruct (foldM (allocateGlobal getTypeAllocSize) (globals m) _)
    as [st1| |] eqn:E1; simpl in Hrun; try discriminate.
  destruct (foldM (initializeGlobal evaluateConstant) (globals m) st1)
    as [st2| |] eqn:E2; simpl in Hrun; try discriminate.
  exists st1, st2.
  destruct (allocateGlobals_other_state _ _ _ _ E1) as (_ & _ & A3 & _ & A5 & _).
  destruct (initializeGlobals_other_state _ _ _ _ E2) as (_ & _ & B3 & B4 & B5).
  repeat split; try assumption.
  - rewrite B3, A3. reflexivity.
  - rewrite B5, A5. simpl. lia.
Qed.

(** X10.  On an interpreter whose global-entity map binds none of the
    module's globals and functions (a first initialisation), with distinct
    globals and distinct functions, [evaluateGlobals] lays the entities out
    back to back in the global section: each global variable at the total
    size of the globals declared before it, each function after all the
    globals at the total size of the functions before it; the section ends
    at the total of all sizes. *)
Theorem first_initialization_lays_out_entities
    (getTypeAllocSize : LType -> N)
    (evaluateConstant : Interpreter -> Value -> result DynamicValue)
    (m : Module) (st st' : Interpreter) :
  (forall g, g ∈ globals m -> globalEnv st !! inl (gvId g) = None) ->
  (forall f, f ∈ functions m -> globalEnv st !! inr (fnId f) = None) ->
  NoDup (gvId <$> globals m) ->
  NoDup (fnId <$> functions m) ->
  evaluateGlobals getTypeAllocSize evaluateConstant m st = OK st' ->
  (forall k1 g k2,
      globals m = k1 ++ g :: k2 ->
      globalEnv st' !! inl (gvId g)
      = Some (totalAllocSize getTypeAllocSize k1)) /\
  (forall k1 f k2,
      functions m = k1 ++ f :: k2 ->
      globalEnv st' !! inr (fnId f)
      = Some (totalAllocSize getTypeAllocSize (globals m)
              + totalFunctionSize getTypeAllocSize k1)) /\
  usedSize (globalMem st')
  = totalAllocSize getTypeAllocSize (globals m)
    + totalFunctionSize getTypeAllocSize (functions m).
Proof.
  intros Hfresh_g Hfresh_f Hnd_g Hnd_f Hrun.
  destruct (evaluateGlobals_phases _ _ _ _ _ Hrun)
    as (st1 & st2 & E1 & E2 & E3 & Henv2 & _ & Hu2).
  destruct (registerFunctions_keep _ _ _ _ E3) as [Hkeep _].
  split; [|split].
  - intros k1 g k2 Hsplit. apply Hkeep. rewrite Henv2.
    rewrite Hsplit in E1.
    rewrite (allocateGlobals_fresh _ _ _ _ _ _ E1).
    + simpl. f_equal.
    + simpl. apply Hfresh_g. rewrite Hsplit.
      apply elem_of_app. right. apply elem_of_cons. auto.
    + apply (NoDup_app_middle gvId k1 g k2). rewrite <- Hsplit. exact Hnd_g.
  - intros k1 f k2 Hsplit. rewrite Hsplit in E3.
    rewrite (registerFunctions_fresh _ _ _ _ _ _ E3).
    + rewrite Hu2. reflexivity.
    + rewrite Henv2.
      destruct (allocateGlobals_other_state _ _ _ _ E1)
        as (_ & _ & _ & _ & _ & Hinr).
      rewrite Hinr. simpl. apply Hfresh_f. rewrite Hsplit.
      apply elem_of_app. right. apply elem_of_cons. auto.
    + apply (NoDup_app_middle fnId k1 f k2). rewrite <- Hsplit. exact Hnd_f.
  - destruct (registerFunctions_state _ _ _ _ E3) as (_ & _ & _ & Hu3).
    rewrite Hu3, Hu2. reflexivity.
Qed.

Lemma first_initialization_lays_out_entities_witness :
  NoDup (gvId <$> globals Samples.firstImage) /\
  NoDup (fnId <$> functions Samples.firstImage) /\
  exists st',
    Reference.initializeProgram Samples.firstImage initialInterpreter = OK st' /\
    globalEnv st' !! inl 6 = Some 8 /\
    globalEnv st' !! inr 4 = Some 24 /\
    usedSize (globalMem st') = 32.
Proof.
  assert (Hg : NoDup (gvId <$> globals Samples.firstImage))
    by (refine (bool_decide_unpack _ _); vm_compute; exact I).
  assert (Hf : NoDup (fnId <$> functions Samples.firstImage))
    by (refine (bool_decide_unpack _ _); vm_compute; exact I).
  split; [exact Hg|]. split; [exact Hf|].
  destruct (Reference.initializeProgram Samples.firstImage initialInterpreter)
    as [st'| |] eqn:Hrun.
  - exists st'. split; [reflexivity|].
    destruct (first_initialization_lays_out_entities
                Reference.getTypeAllocSize Reference.evaluateConstant
                Samples.firstImage initialInterpreter st'
                (fun g _ => eq_refl) (fun f _ => eq_refl) Hg Hf Hrun)
      as (Hglobals & Hfunctions & Hsize).
    split; [exact (Hglobals [Samples.globalC] Samples.globalD [] eq_refl)|].
    split; [exact (Hfunctions [Samples.helper] Samples.entry [] eq_refl)|].
    exact Hsize.
  - exfalso. vm_compute in Hrun. discriminate.
  - exfalso. vm_compute in Hrun. discriminate.
Defined.

(** ** Function addresses *)

Lemma registerFunctions_funptr getTypeAllocSize l1 f l2 :
  forall st st',
    foldM (registerFunction getTypeAllocSize) (l1 ++ f :: l2) st = OK st' ->
    (forall a, usedSize (globalMem st) <= a -> funPtrMap st !! a = None) ->
    Forall (fun h => 0 < getTypeAllocSize (getType (GFunction h))) l1 ->
    funPtrMap st' !! (usedSize (globalMem st)
                      + totalFunctionSize getTypeAllocSize l1)
    = Some (fnId f).
Proof.
  induction l1 as [|h l1 IH]; intros st st'; simpl.
  - destruct (registerFunction getTypeAllocSize f st) as [st1| |] eqn:E;
      simpl; try discriminate.
    intros Hrun Hfree _.
    destruct (registerFunctions_keep _ _ _ _ Hrun) as [_ Hkeep].
    apply Hkeep. apply registerFunction_inv in E as [_ ->].
    rewrite N.add_0_r, map_insert_new_lookup, (Hfree _ (N.le_refl _)).
    rewrite decide_True by reflexivity. reflexivity.
  - destruct (registerFunction getTypeAllocSize h st) as [st1| |] eqn:E;
      simpl; try discriminate.
    intros Hrun Hfree Hpos. inversion Hpos as [|? ? Hh Hpos']; subst.
    destruct (registerFunction_state _ _ _ _ E) as (_ & _ & _ & Hu & _ & Hfun).
    replace (usedSize (globalMem st)
             + (getTypeAllocSize (getType (GFunction h))
                + totalFunctionSize getTypeAllocSize l1))
      with (usedSize (globalMem st1) + totalFunctionSize getTypeAllocSize l1)
      by (rewrite Hu; lia).
    apply (IH _ _ Hrun); [|exact Hpos'].
    intros a Ha. rewrite Hfun, map_insert_new_lookup.
    rewrite Hfree by lia. rewrite decide_False; [reflexivity | lia].
Qed.

Lemma registerFunctions_funptr_inv getTypeAllocSize fs :
  forall st st' a id,
    foldM (registerFunction getTypeAllocSize) fs st = OK st' ->
    funPtrMap st' !! a = Some id ->
    funPtrMap st !! a = Some id \/
    exists l1 f l2,
      fs = l1 ++ f :: l2 /\ id = fnId f /\
      a = usedSize (globalMem st) + totalFunctionSize getTypeAllocSize l1.
Proof.
  induction fs as [|h fs IH]; intros st st' a id; simpl.
  - intros [= <-] Ha. left. exact Ha.
  - destruct (registerFunction getTypeAllocSize h st) as [st1| |] eqn:E;
      simpl; try discriminate.
    intros Hrun Ha.
    destruct (registerFunction_state _ _ _ _ E) as (_ & _ & _ & Hu & _ & Hfun).
    destruct (IH _ _ _ _ Hrun Ha) as [H1 | (l1 & f & l2 & -> & -> & ->)].
    + rewrite Hfun, map_insert_new_lookup in H1.
      destruct (funPtrMap st !! a) as [w|] eqn:Ew.
      * left. exact H1.
      * destruct (decide (usedSize (globalMem st) = a)) as [<-|];
          [|discriminate].
        injection H1 as <-. right. exists [], h, fs. simpl.
        repeat split. lia.
    + right. exists (h :: l1), f, l2. simpl. repeat split.
      rewrite Hu. lia.
Qed.

(** X11.  After a first initialisation (both maps hold nothing for the
    module yet) of a module with distinct functions whose allocation sizes
    are positive, the function-address map is the inverse of the
    global-entity map on functions: the address of every function resolves
    back to that function, and every address the map resolves is the
    address of the function it names. *)
Theorem function_addresses_resolve_back
    (getTypeAllocSize : LType -> N)
    (evaluateConstant : Interpreter -> Value -> result DynamicValue)
    (m : Module) (st st' : Interpreter) :
  (forall f, f ∈ functions m -> globalEnv st !! inr (fnId f) = None) ->
  funPtrMap st = ∅ ->
  NoDup (fnId <$> functions m) ->
  Forall (fun f => 0 < getTypeAllocSize (getType (GFunction f))) (functions m) ->
  evaluateGlobals getTypeAllocSize evaluateConstant m st = OK st' ->
  (forall f, f ∈ functions m ->
             exists a, globalEnv st' !! inr (fnId f) = Some a /\
                       funPtrMap st' !! a = Some (fnId f)) /\
  (forall a id, funPtrMap st' !! a = Some id ->
                globalEnv st' !! inr id = Some a).
Proof.
  intros Hfresh Hempty Hnd Hpos Hrun.
  destruct (evaluateGlobals_phases _ _ _ _ _ Hrun)
    as (st1 & st2 & E1 & E2 & E3 & Henv2 & Hfun2 & Hu2).
  assert (Hunbound : forall f, f ∈ functions m ->
                               globalEnv st2 !! inr (fnId f) = None).
  { intros f Hf. rewrite Henv2.
    destruct (allocateGlobals_other_state _ _ _ _ E1)
      as (_ & _ & _ & _ & _ & Hinr).
    rewrite Hinr. simpl. apply Hfresh. exact Hf. }
  assert (Haddr : forall l1 f l2,
             functions m = l1 ++ f :: l2 ->
             globalEnv st' !! inr (fnId f)
             = Some (usedSize (globalMem st2)
                     + totalFunctionSize getTypeAllocSize l1)).
  { intros l1 f l2 Hsplit. rewrite Hsplit in E3.
    apply (registerFunctions_fresh _ _ _ _ _ _ E3).
    - apply Hunbound. rewrite Hsplit.
      apply elem_of_app. right. apply elem_of_cons. auto.
    - apply (NoDup_app_middle fnId l1 f l2). rewrite <- Hsplit. exact Hnd. }
  split.
  - intros f Hf. apply list_elem_of_split in Hf as (l1 & l2 & Hsplit).
    eexists. split; [apply (Haddr _ _ _ Hsplit)|].
    rewrite Hsplit in E3, Hpos.
    apply (registerFunctions_funptr _ _ _ _ _ _ E3).
    + intros a _. rewrite Hfun2, Hempty. apply lookup_empty.
    + apply Forall_app in Hpos as [Hpos _]. exact Hpos.
  - intros a id Ha.
    destruct (registerFunctions_funptr_inv _ _ _ _ _ _ E3 Ha)
      as [H0 | (l1 & f & l2 & Hsplit & -> & ->)].
    + rewrite Hfun2, Hempty, lookup_empty in H0. discriminate.
    + apply (Haddr _ _ _ Hsplit).
Qed.

Lemma function_addresses_resolve_back_witness :
  NoDup (fnId <$> functions Samples.firstImage) /\
  Forall (fun f => 0 < Reference.getTypeAllocSize (getType (GFunction f)))
         (functions Samples.firstImage) /\
  exists st',
    Reference.initializeProgram Samples.firstImage initialInterpreter = OK st' /\
    (forall a id, funPtrMap st' !! a = Some id ->
                  globalEnv st' !! inr id = Some a) /\
    exists a, globalEnv st' !! inr 3 = Some a /\ funPtrMap st' !! a = Some 3.
Proof.
  assert (Hf : NoDup (fnId <$> functions Samples.firstImage))
    by (refine (bool_decide_unpack _ _); vm_compute; exact I).
  assert (Hpos : Forall (fun f => 0 < Reference.getTypeAllocSize (getType (GFunction f)))
                        (functions Samples.firstImage))
    by (repeat constructor).
  split; [exact Hf|]. split; [exact Hpos|].
  destruct (Reference.initializeProgram Samples.firstImage initialInterpreter)
    as [st'| |] eqn:Hrun.
  - exists st'. split; [reflexivity|].
    destruct (function_addresses_resolve_back
                Reference.getTypeAllocSize Reference.evaluateConstant
                Samples.firstImage initialInterpreter st'
                (fun f _ => eq_refl) eq_refl Hf Hpos Hrun)
      as (Hforth & Hback).
    split; [exact Hback|].
    apply (Hforth Samples.helper). apply elem_of_cons. auto.
  - exfalso. vm_compute in Hrun. discriminate.
  - exfalso. vm_compute in Hrun. discriminate.
Defined.

(** ** Initialising the same module again *)

Lemma map_insert_new_bound `{Countable K} {V : Type} (k : K) (v : V)
    (m : gmap K V) :
  is_Some (m !! k) -> map_insert_new k v m = m.
Proof. intros [w Hw]. unfold map_insert_new. rewrite Hw. reflexivity. Qed.

Lemma allocateGlobals_noop getTypeAllocSize gs :
  forall st st',
    foldM (allocateGlobal getTypeAllocSize) gs st = OK st' ->
    (forall g, g ∈ gs -> is_Some (globalEnv st !! inl (gvId g))) ->
    globalEnv st' = globalEnv st.
Proof.
  induction gs as [|g gs IH]; intros st st'; simpl.
  - intros [= <-] _. reflexivity.
  - destruct (allocateGlobal getTypeAllocSize g st) as [st1| |] eqn:E;
      simpl; try discriminate.
    intros Hrun Hbound. apply allocateGlobal_inv in E as [_ ->].
    rewrite (IH _ _ Hrun); simpl.
    + apply map_insert_new_bound. apply Hbound. apply elem_of_cons. auto.
    + intros h Hh. rewrite map_insert_new_bound.
      * apply Hbound. apply elem_of_cons. auto.
      * apply Hbound. apply elem_of_cons. auto.
Qed.

Lemma registerFunctions_bound getTypeAllocSize l1 f l2 :
  forall st st',
    foldM (registerFunction getTypeAllocSize) (l1 ++ f :: l2) st = OK st' ->
    is_Some (globalEnv st' !! inr (fnId f)) /\
    is_Some (funPtrMap st' !! (usedSize (globalMem st)
                               + totalFunctionSize getTypeAllocSize l1)).
Proof.
  induction l1 as [|h l1 IH]; intros st st'; simpl.
  - destruct (registerFunction getTypeAllocSize f st) as [st1| |] eqn:E;
      simpl; try discriminate.
    intros Hrun. destruct (registerFunctions_keep _ _ _ _ Hrun) as [Kenv Kfun].
    apply registerFunction_inv in E as [Eenv Efun].
    rewrite N.add_0_r. split.
    + destruct (globalEnv st1 !! inr (fnId f)) as [a|] eqn:Ea.
      * exists a. apply Kenv. exact Ea.
      * rewrite Eenv, map_insert_new_lookup in Ea.
        destruct (globalEnv st !! inr (fnId f)); [discriminate|].
        rewrite decide_True in Ea by reflexivity. discriminate.
    + destruct (funPtrMap st1 !! usedSize (globalMem st)) as [g|] eqn:Eg.
      * exists g. apply Kfun. exact Eg.
      * rewrite Efun, map_insert_new_lookup in Eg.
        destruct (funPtrMap st !! usedSize (globalMem st)); [discriminate|].
        rewrite decide_True in Eg by reflexivity. discriminate.
  - destruct (registerFunction getTypeAllocSize h st) as [st1| |] eqn:E;
      simpl; try discriminate.
    intros Hrun.
    destruct (registerFunction_state _ _ _ _ E) as (_ & _ & _ & Hu & _).
    destruct (IH _ _ Hrun) as [H1 H2]. split; [exact H1|].
    replace (usedSize (globalMem st)
             + (getTypeAllocSize (getType (GFunction h))
                + totalFunctionSize getTypeAllocSize l1))
      with (usedSize (globalMem st1) + totalFunctionSize getTypeAllocSize l1)
      by (rewrite Hu; lia).
    exact H2.
Qed.

Lemma registerFunctions_noop getTypeAllocSize fs :
  forall st st',
    foldM (registerFunction getTypeAllocSize) fs st = OK st' ->
    (forall l1 f l2,
        fs = l1 ++ f :: l2 ->
        is_Some (globalEnv st !! inr (fnId f)) /\
        is_Some (funPtrMap st !! (usedSize (globalMem st)
                                  + totalFunctionSize getTypeAllocSize l1))) ->
    globalEnv st' = globalEnv st /\ funPtrMap st' = funPtrMap st.
Proof.
  induction fs as [|h fs IH]; intros st st'; simpl.
  - intros [= <-] _. auto.
  - destruct (registerFunction getTypeAllocSize h st) as [st1| |] eqn:E;
      simpl; try discriminate.
    intros Hrun Hbound.
    destruct (registerFunction_state _ _ _ _ E) as (_ & _ & _ & Hu & Henv & Hfun).
    destruct (Hbound [] h fs eq_refl) as [Bh Ba]. simpl in Ba.
    rewrite N.add_0_r in Ba.
    rewrite (map_insert_new_bound _ _ _ Bh) in Henv.
    rewrite (map_insert_new_bound _ _ _ Ba) in Hfun.
    destruct (IH _ _ Hrun) as [I1 I2].
    + intros l1 f l2 Hsplit.
      destruct (Hbound (h :: l1) f l2) as [B1 B2]; [simpl; congruence|].
      rewrite Henv, Hfun. split; [exact B1|].
      simpl in B2.
      replace (usedSize (globalMem st1) + totalFunctionSize getTypeAllocSize l1)
        with (usedSize (globalMem st)
              + (getTypeAllocSize (getType (GFunction h))
                 + totalFunctionSize getTypeAllocSize l1))
        by (rewrite Hu; lia).
      exact B2.
    + rewrite I1, I2, Henv, Hfun. auto.
Qed.

(** X12.  Initialising the same module a second time changes neither map:
    every insertion of the second call finds its key present, so the
    global-entity map and the function-address map are those of the first
    call, and the global section ends at the same mark. *)
Theorem reinitialization_of_same_module_keeps_maps
    (getTypeAllocSize : LType -> N)
    (evaluateConstant : Interpreter -> Value -> result DynamicValue)
    (m : Module) (st st1 st2 : Interpreter) :
  evaluateGlobals getTypeAllocSize evaluateConstant m st = OK st1 ->
  evaluateGlobals getTypeAllocSize evaluateConstant m st1 = OK st2 ->
  globalEnv st2 = globalEnv st1 /\ funPtrMap st2 = funPtrMap st1 /\
  usedSize (globalMem st2) = usedSize (globalMem st1).
Proof.
  intros Hfirst Hsecond.
  destruct (evaluateGlobals_phases _ _ _ _ _ Hfirst)
    as (a1 & a2 & A1 & A2 & A3 & Aenv & Afun & Au).
  destruct (evaluateGlobals_phases _ _ _ _ _ Hsecond)
    as (b1 & b2 & B1 & B2 & B3 & Benv & Bfun & Bu).
  destruct (registerFunctions_keep _ _ _ _ A3) as [Akeep _].
  assert (Hb1 : globalEnv b1 = globalEnv st1).
  { rewrite (allocateGlobals_noop _ _ _ _ B1); [reflexivity|].
    intros g Hg. simpl.
    destruct (allocateGlobals_bound _ _ _ _ g A1 Hg) as [a Ha].
    exists a. apply Akeep. rewrite Aenv. exact Ha. }
  destruct (registerFunctions_noop _ _ _ _ B3) as [C1 C2].
  { intros l1 f l2 Hsplit. rewrite Benv, Hb1, Bfun, Bu, <- Au.
    rewrite Hsplit in A3. apply (registerFunctions_bound _ _ _ _ _ _ A3). }
  destruct (registerFunctions_state _ _ _ _ A3) as (_ & _ & _ & Au3).
  destruct (registerFunctions_state _ _ _ _ B3) as (_ & _ & _ & Bu3).
  split; [rewrite C1, Benv, Hb1; reflexivity|].
  split; [rewrite C2, Bfun; reflexivity|].
  rewrite Au3, Bu3, Au, Bu. reflexivity.
Qed.

Lemma reinitialization_of_same_module_keeps_maps_witness :
  exists st1 st2,
    Reference.initializeProgram Samples.firstImage initialInterpreter = OK st1 /\
    Reference.initializeProgram Samples.firstImage st1 = OK st2 /\
    globalEnv st2 = globalEnv st1 /\ funPtrMap st2 = funPtrMap st1.
Proof.
  destruct (Reference.initializeProgram Samples.firstImage initialInterpreter)
    as [st1| |] eqn:H1;
    [|exfalso; vm_compute in H1; discriminate
     |exfalso; vm_compute in H1; discriminate].
  destruct (Reference.initializeProgram Samples.firstImage st1)
    as [st2| |] eqn:H2.
  - exists st1, st2. split; [reflexivity|]. split; [exact H2|].
    destruct (reinitialization_of_same_module_keeps_maps
                Reference.getTypeAllocSize Reference.evaluateConstant
                Samples.firstImage initialInterpreter st1 st2 H1 H2)
      as (Henv & Hfun & _).
    split; assumption.
  - exfalso. vm_compute in H1. injection H1 as <-. vm_compute in H2.
    discriminate.
  - exfalso. vm_compute in H1. injection H1 as <-. vm_compute in H2.
    discriminate.
Defined.

(** ** The values of initialised globals *)






(** ** The caller's frames *)

Lemma updateFrame_onTopOf (g : StackFrame -> StackFrame) st st' below :
  onTopOf below st ->
  updateFrame (length below) g st = OK st' ->
  onTopOf below st'.
Proof.
  intros [top Hst] Hupd. rewrite (updateFrame_top _ _ _ _ Hst) in Hupd.
  injection Hupd as <-. exists (g top). reflexivity.
Qed.

Lemma commitPhiValues_onTopOf cache st st' below :
  onTopOf below st ->
  commitPhiValues (length below) cache st = OK st' ->
  onTopOf below st'.
Proof.
  unfold commitPhiValues. revert st.
  induction cache as [|[id v] cache IH]; intros st Htop; simpl.
  - congruence.
  - destruct (updateFrame (length below) (insertBinding id v) st)
      as [st1| |] eqn:E; simpl; try discriminate.
    apply IH. eapply updateFrame_onTopOf; eassumption.
Qed.

Lemma switchToNewBasicBlock_onTopOf evaluateOperand f curBB destBB st bb st'
    below :
  onTopOf below st ->
  switchToNewBasicBlock evaluateOperand (length below) f curBB destBB st
  = OK (bb, st') ->
  onTopOf below st'.
Proof.
  intros Htop. unfold switchToNewBasicBlock.
  destruct (fnBlocks f !! destBB) as [insts|]; [|discriminate].
  destruct (collectPhiValues evaluateOperand (length below) curBB insts st)
    as [cache| |]; simpl; try discriminate.
  destruct (commitPhiValues (length below) cache st) as [st1| |] eqn:E;
    simpl; try discriminate.
  intros [= _ <-]. eapply commitPhiValues_onTopOf; eassumption.
Qed.

Lemma evaluateStraightLine_onTopOf evaluateInstruction call insts below :
  WritesOwnFrameOnly evaluateInstruction ->
  KeepsStack call ->
  forall st st',
    onTopOf below st ->
    evaluateStraightLine evaluateInstruction call (length below) insts st
    = OK st' ->
    onTopOf below st'.
Proof.
  intros Hown Hcall.
  induction insts as [|i insts IH]; intros st st' Htop; simpl.
  - congruence.
  - destruct (isTerminator i); [congruence|].
    destruct (evaluateInstruction call (length below) i st)
      as [st1| |] eqn:E; simpl; try discriminate.
    apply IH. destruct Htop as [top Hst]. eapply Hown; eassumption.
Qed.

Lemma dispatchTerminator_onTopOf evaluateOperand f curBB termInst st below :
  onTopOf below st ->
  match dispatchTerminator evaluateOperand (length below) f curBB termInst st
  with
  | OK (Continue _ st') => onTopOf below st'
  | OK (Return _ st') => stack st' = below
  | _ => True
  end.
Proof.
  intros Htop.
  destruct termInst; simpl; try exact I.
  - match goal with
    | |- context [?r ≫= (fun destBB => _)] => destruct r as [destBB| |]
    end; simpl; try exact I.
    destruct (switchToNewBasicBlock evaluateOperand (length below) f curBB
                destBB st) as [[bb st']| |] eqn:E; simpl; try exact I.
    eapply switchToNewBasicBlock_onTopOf; eassumption.
  - match goal with
    | |- context [?r ≫= (fun retVal => _)] => destruct r as [retVal| |]
    end; simpl; try exact I.
    destruct Htop as [top Hst]. rewrite (popStack_snoc _ _ _ Hst). simpl.
    reflexivity.
  - destruct (evaluateOperand st (length below) cond) as [condVal| |];
      simpl; try exact I.
    destruct (getAsIntValue condVal) as [condInt| |]; simpl; try exact I.
    destruct (switchToNewBasicBlock evaluateOperand (length below) f curBB
                (findCaseDest condInt defaultDest cases) st)
      as [[bb st']| |] eqn:E; simpl; try exact I.
    eapply switchToNewBasicBlock_onTopOf; eassumption.
Qed.

Lemma runLoop_pops_to_caller evaluateOperand evaluateInstruction call :
  WritesOwnFrameOnly evaluateInstruction ->
  KeepsStack call ->
  forall fuel f curBB st below v st',
    onTopOf below st ->
    runLoop evaluateOperand evaluateInstruction call fuel (length below)
            f curBB st = OK (v, st') ->
    stack st' = below.
Proof.
  intros Hown Hcall.
  induction fuel as [|fuel IH]; intros f curBB st below v st' Htop; simpl;
    [discriminate|].
  unfold runBlock.
  destruct (fnBlocks f !! curBB) as [bb|]; [|discriminate]. simpl.
  destruct (evaluateStraightLine evaluateInstruction call (length below)
              (skipPHINodes bb) st) as [st1| |] eqn:Eline;
    simpl; try discriminate.
  assert (Htop1 : onTopOf below st1)
    by (eapply evaluateStraightLine_onTopOf; eassumption).
  destruct (getTerminator bb) as [termInst|]; [|discriminate].
  pose proof (dispatchTerminator_onTopOf evaluateOperand f curBB termInst st1
                below Htop1) as Hstep.
  destruct (dispatchTerminator evaluateOperand (length below) f curBB
              termInst st1) as [[bb' st2 | retVal st2]| |];
    simpl; try discriminate.
  - apply IH. exact Hstep.
  - intros [= <- <-]. exact Hstep.
Qed.

Lemma callFunction_keeps_stack evaluateOperand evaluateInstruction
    callExternalFunction :
  KeepsStack callExternalFunction ->
  WritesOwnFrameOnly evaluateInstruction ->
  forall fuel,
    KeepsStack (callFunction evaluateOperand evaluateInstruction
                             callExternalFunction fuel).
Proof.
  intros Hext Hown.
  induction fuel as [|fuel IH]; intros f argValues st v st'; simpl;
    [discriminate|].
  destruct (isDeclaration f); [apply Hext|].
  rewrite enterFunction_arity.
  destruct (arityOK f argValues); simpl; [|discriminate].
  unfold runFunction.
  match goal with
  | |- context [getFrame ?fr ?s] => destruct (getFrame fr s) as [top| |]
  end; simpl; try discriminate.
  apply (runLoop_pops_to_caller evaluateOperand evaluateInstruction _ Hown IH).
  exists (enteredFrame f argValues). reflexivity.
Qed.

(** X14.  Provided the external boundary leaves the frames on the stack as
    they are and the instruction evaluator changes no frame but its own, an
    invocation that returns leaves every frame of the caller's stack exactly
    as it was: no binding, overflow value or recorded total of a caller's
    frame is changed by the callee. *)
Theorem invocation_leaves_caller_frames
    (evaluateOperand : Interpreter -> FrameRef -> Value -> result DynamicValue)
    (evaluateInstruction :
       CallHook -> FrameRef -> Instruction -> Interpreter -> result Interpreter)
    (callExternalFunction : CallHook)
    (fuel : nat) (f : Function) (argValues : list DynamicValue)
    (st st' : Interpreter) (v : DynamicValue) :
  KeepsStack callExternalFunction ->
  WritesOwnFrameOnly evaluateInstruction ->
  callFunction evaluateOperand evaluateInstruction callExternalFunction
               fuel f argValues st = OK (v, st') ->
  stack st' = stack st.
Proof.
  intros Hext Hown Hrun.
  exact (callFunction_keeps_stack evaluateOperand evaluateInstruction
           callExternalFunction Hext Hown fuel f argValues st v st' Hrun).
Qed.

Lemma reference_external_keeps_stack : KeepsStack Reference.callExternalFunction.
Proof.
  intros f argValues st v st'. unfold Reference.callExternalFunction.
  intros [= _ <-]. reflexivity.
Qed.

Lemma reference_binary_onTopOf id op x y st st' below :
  onTopOf below st ->
  (a ← Reference.evaluateOperand st (length below) x;
   b ← Reference.evaluateOperand st (length below) y;
   i ← getAsIntValue a;
   j ← getAsIntValue b;
   r ← Reference.binaryOp op i j;
   updateFrame (length below) (insertBinding id r) st) = OK st' ->
  onTopOf below st'.
Proof.
  intros Htop Hrun.
  destruct (Reference.evaluateOperand st (length below) x) as [a| |];
    simpl in Hrun; try discriminate.
  destruct (Reference.evaluateOperand st (length below) y) as [c| |];
    simpl in Hrun; try discriminate.
  destruct (getAsIntValue a) as [i| |]; simpl in Hrun; try discriminate.
  destruct (getAsIntValue c) as [j| |]; simpl in Hrun; try discriminate.
  destruct (Reference.binaryOp op i j) as [r| |]; simpl in Hrun;
    try discriminate.
  eapply updateFrame_onTopOf; eassumption.
Qed.

Lemma reference_call_onTopOf m call id callee args st st' below :
  KeepsStack call ->
  onTopOf below st ->
  match Reference.findFunction m callee with
  | None => Fatal CollaboratorFailure
  | Some f =>
      argValues ← Reference.evaluateOperands st (length below) args;
      '(r, st1) ← call f argValues st;
      updateFrame (length below) (insertBinding id r) st1
  end = OK st' ->
  onTopOf below st'.
Proof.
  intros Hcall Htop Hrun.
  destruct (Reference.findFunction m callee) as [f|]; [|discriminate].
  destruct (Reference.evaluateOperands st (length below) args)
    as [argValues| |]; simpl in Hrun; try discriminate.
  destruct (call f argValues st) as [[r st1]| |] eqn:E; simpl in Hrun;
    try discriminate.
  eapply updateFrame_onTopOf; [|exact Hrun].
  destruct Htop as [top Hst]. exists top.
  rewrite (Hcall _ _ _ _ _ E). exact Hst.
Qed.

Lemma reference_instructions_write_own_frame (m : Module) :
  WritesOwnFrameOnly (Reference.evaluateInstruction m).
Proof.
  intros call inst st st' below top Hcall Hst Hrun.
  assert (Htop : onTopOf below st) by (exists top; exact Hst).
  change (onTopOf below st'). clear Hst.
  destruct inst as [| id op operands | | | | | | |]; try discriminate.
  destruct operands as [|x [|y [|z rest]]].
  - destruct op; discriminate.
  - destruct op; try discriminate.
    + destruct x as [size| | |]; try discriminate. simpl in Hrun.
      destruct (allocateStackMem (length below) (Z.to_N (VAL size)) st)
        as [[a st1]| |] eqn:E; simpl in Hrun; try discriminate.
      eapply updateFrame_onTopOf; [|exact Hrun].
      destruct Htop as [top0 Hst].
      rewrite (allocateStackMem_top _ _ _ _ Hst) in E. injection E as _ <-.
      eexists. reflexivity.
    + simpl in Hrun.
      destruct (Reference.evaluateOperand st (length below) x) as [p| |];
        simpl in Hrun; try discriminate.
      match type of Hrun with
      | ?r ≫= _ = _ => destruct r as [v| |]
      end; simpl in Hrun; try discriminate.
      eapply updateFrame_onTopOf; eassumption.
    + destruct x as [| |[?|callee]|]; try discriminate.
      eapply (reference_call_onTopOf m call id callee []);
        [exact Hcall | exact Htop | exact Hrun].
  - assert (Hbinary :
      (a ← Reference.evaluateOperand st (length below) x;
       c ← Reference.evaluateOperand st (length below) y;
       i ← getAsIntValue a;
       j ← getAsIntValue c;
       r ← Reference.binaryOp op i j;
       updateFrame (length below) (insertBinding id r) st) = OK st' ->
      onTopOf below st')
      by (intros H; eapply reference_binary_onTopOf; [exact Htop|exact H]).
    destruct op; try (apply Hbinary; exact Hrun);
      try (apply Hbinary; destruct x as [| |[|]|]; exact Hrun).
    + simpl in Hrun.
      destruct (Reference.evaluateOperand st (length below) x) as [v| |];
        simpl in Hrun; try discriminate.
      destruct (Reference.evaluateOperand st (length below) y) as [p| |];
        simpl in Hrun; try discriminate.
      destruct p as [| |[|] a]; try discriminate.
      * destruct (write a v (stackMem st)) as [mem| |]; simpl in Hrun;
          try discriminate.
        injection Hrun as <-. exact Htop.
      * destruct (write a v (globalMem st)) as [mem| |]; simpl in Hrun;
          try discriminate.
        injection Hrun as <-. exact Htop.
    + destruct x as [| |[?|callee]|]; try (apply Hbinary; exact Hrun).
      eapply (reference_call_onTopOf m call id callee [y]);
        [exact Hcall | exact Htop | exact Hrun].
  - destruct op, x as [| |[?|callee]|]; try discriminate.
    eapply (reference_call_onTopOf m call id callee (y :: z :: rest));
      [exact Hcall | exact Htop | exact Hrun].
Qed.

Lemma invocation_leaves_caller_frames_witness :
  KeepsStack Reference.callExternalFunction /\
  WritesOwnFrameOnly (Reference.evaluateInstruction Samples.allocModule) /\
  exists st',
    Reference.invoke Samples.allocModule 20 Samples.allocRec
      [IntValue (Samples.i32 3)] Samples.inCaller
    = OK (IntValue (Samples.i32 3), st') /\
    stack st' = [mkStackFrame Samples.entry ∅ [] 16].
Proof.
  split; [exact reference_external_keeps_stack|].
  split; [exact (reference_instructions_write_own_frame Samples.allocModule)|].
  destruct (Reference.invoke Samples.allocModule 20 Samples.allocRec
              [IntValue (Samples.i32 3)] Samples.inCaller)
    as [[v st']| |] eqn:Hrun.
  - assert (Hv : v = IntValue (Samples.i32 3)).
    { apply (f_equal (fmap fst)) in Hrun. vm_compute in Hrun.
      injection Hrun as <-. reflexivity. }
    subst v. exists st'. split; [reflexivity|].
    exact (invocation_leaves_caller_frames Reference.evaluateOperand
             (Reference.evaluateInstruction Samples.allocModule)
             Reference.callExternalFunction 20 Samples.allocRec
             [IntValue (Samples.i32 3)] Samples.inCaller st' _
             reference_external_keeps_stack
             (reference_instructions_write_own_frame Samples.allocModule)
             Hrun).
  - exfalso. vm_compute in Hrun. discriminate.
  - exfalso. vm_compute in Hrun. discriminate.
Defined.

(** ** A function that returns at once *)

(** X15.  Invoking a function whose entry block is a lone return, with an
    argument count that meets the arity assertion, gives back the
    interpreter exactly as it was before the call; the value is that of the
    return operand, evaluated in the callee's frame while it is on top of
    the caller's stack and holds the bound arguments, or the undefined value
    when there is no operand. *)
Theorem immediate_return_leaves_interpreter_unchanged
    (evaluateOperand : Interpreter -> FrameRef -> Value -> result DynamicValue)
    (evaluateInstruction :
       CallHook -> FrameRef -> Instruction -> Interpreter -> result Interpreter)
    (callExternalFunction : CallHook)
    (fuel : nat) (f : Function) (argValues : list DynamicValue)
    (retval : option Value) (st : Interpreter) :
  fnBlocks f !! 0%nat = Some [ReturnInst retval] ->
  arityOK f argValues = true ->
  callFunction evaluateOperand evaluateInstruction callExternalFunction
               (S (S fuel)) f argValues st
  = match retval with
    | Some value =>
        v ← evaluateOperand
              (setStack (stack st ++ [enteredFrame f argValues]) st)
              (length (stack st)) value;
        OK (v, st)
    | None => OK (UndefValue, st)
    end.
Proof.
  intros Hentry Harity.
  assert (Hbody : isDeclaration f = false).
  { unfold isDeclaration. destruct (fnBlocks f); [discriminate | reflexivity]. }
  cbn [callFunction]. rewrite Hbody, enterFunction_arity, Harity.
  cbn [mbind result_bind]. unfold runFunction, getFrame.
  cbn [stack setStack].
  rewrite lookup_app_r, Nat.sub_diag by lia.
  cbn [lookup list_lookup mbind result_bind runLoop]. unfold runBlock.
  assert (Hfn : getFunction (enteredFrame f argValues) = f).
  { unfold enteredFrame.
    destruct (foldl_insertVararg
                (foldl bindPair (newFrame f) (zip (fnArgs f) argValues))
                (drop (length (fnArgs f)) argValues)) as (-> & _).
    destruct (foldl_bindPair (newFrame f) (zip (fnArgs f) argValues))
      as (-> & _).
    reflexivity. }
  rewrite Hfn, Hentry. simpl.
  assert (Hpop :
    popStack (setStack (stack st ++ [enteredFrame f argValues]) st) = OK st).
  { erewrite popStack_snoc; [|reflexivity].
    rewrite enteredFrame_allocation. simpl.
    destruct st as [s [u c] g e p]. simpl. rewrite N.sub_0_r. reflexivity. }
  destruct retval as [value|]; simpl.
  - destruct (evaluateOperand _ (length (stack st)) value); simpl;
      try reflexivity.
    rewrite Hpop. reflexivity.
  - rewrite Hpop. reflexivity.
Qed.

Lemma immediate_return_leaves_interpreter_unchanged_witness :
  fnBlocks Samples.minusOne !! 0%nat
  = Some [ReturnInst (Some (ConstantInt (Samples.i32 4294967295)))] /\
  arityOK Samples.minusOne [] = true /\
  Reference.invoke Samples.factModule 2 Samples.minusOne [] Samples.inCaller
  = OK (IntValue (Samples.i32 4294967295), Samples.inCaller).
Proof.
  split; [reflexivity|]. split; [reflexivity|].
  apply (immediate_return_leaves_interpreter_unchanged
           Reference.evaluateOperand
           (Reference.evaluateInstruction Samples.factModule)
           Reference.callExternalFunction 0 Samples.minusOne []
           (Some (ConstantInt (Samples.i32 4294967295))) Samples.inCaller);
    reflexivity.
Defined.


(** ** The state in which an initialiser is evaluated *)

Lemma registerFunctions_variable_keys getTypeAllocSize fs :
  forall st st',
    foldM (registerFunction getTypeAllocSize) fs st = OK st' ->
    forall k : GlobalVarId, globalEnv st' !! inl k = globalEnv st !! inl k.
Proof.
  induction fs as [|f fs IH]; intros st st'; simpl.
  - intros [= <-] k. reflexivity.
  - destruct (registerFunction getTypeAllocSize f st) as [st1| |] eqn:E;
      simpl; try discriminate.
    intros Hrun k. rewrite (IH _ _ Hrun).
    apply registerFunction_inv in E as [-> _].
    rewrite map_insert_new_lookup.
    destruct (globalEnv st !! inl k); [reflexivity|].
    rewrite decide_False; [reflexivity | discriminate].
Qed.

(** X9.  When [evaluateGlobals] returns, every initialiser of the module
    was evaluated, successfully, in an interpreter whose global-entity map
    binds the functions as before the call and the global variables as
    after it: all the global variables of the module have their addresses
    by then, and the functions get theirs only afterwards, so on a first
    initialisation an initialiser finds no function bound. *)
Theorem initializers_run_before_functions_are_registered
    (getTypeAllocSize : LType -> N)
    (evaluateConstant : Interpreter -> Value -> result DynamicValue)
    (m : Module) (st st' : Interpreter)
    (k1 : list GlobalVariable) (g : GlobalVariable) (k2 : list GlobalVariable)
    (c : Value) :
  evaluateGlobals getTypeAllocSize evaluateConstant m st = OK st' ->
  globals m = k1 ++ g :: k2 ->
  gvInitializer g = Some c ->
  exists s v,
    evaluateConstant s c = OK v /\
    (forall k : FunctionId, globalEnv s !! inr k = globalEnv st !! inr k) /\
    (forall k : GlobalVarId, globalEnv s !! inl k = globalEnv st' !! inl k) /\
    (forall h, h ∈ globals m -> is_Some (globalEnv s !! inl (gvId h))).
Proof.
  intros Hrun Hsplit Hc.
  destruct (evaluateGlobals_phases _ _ _ _ _ Hrun)
    as (st1 & st2 & E1 & E2 & E3 & Henv2 & _ & _).
  rewrite Hsplit, foldM_app in E2.
  destruct (foldM (initializeGlobal evaluateConstant) k1 st1)
    as [s| |] eqn:Ek1; simpl in E2; try discriminate.
  destruct (initializeGlobal evaluateConstant g s) as [s1| |] eqn:Eg;
    simpl in E2; try discriminate.
  destruct (initializeGlobals_other_state _ _ _ _ Ek1) as (_ & _ & _ & Hs & _).
  destruct (allocateGlobals_other_state _ _ _ _ E1)
    as (_ & _ & _ & _ & _ & Hinr).
  assert (Hv : exists v, evaluateConstant s c = OK v).
  { clear -Eg Hc. unfold initializeGlobal in Eg. rewrite Hc in Eg.
    destruct (globalEnv s !! inl (gvId g)); [|discriminate].
    destruct (evaluateConstant s c) as [v| |]; try discriminate.
    exists v. reflexivity. }
  destruct Hv as [v Hv]. exists s, v.
  split; [exact Hv|]. split; [|split].
  - intros k. rewrite Hs, Hinr. reflexivity.
  - intros k. rewrite Hs, <- Henv2.
    symmetry. apply (registerFunctions_variable_keys _ _ _ _ E3).
  - intros h Hh. rewrite Hs. eapply allocateGlobals_bound; eassumption.
Qed.

Lemma initializers_run_before_functions_are_registered_witness :
  exists st',
    Reference.initializeProgram Samples.mixedModule initialInterpreter
    = OK st' /\
    globalEnv st' !! inr 3 = Some 8 /\
    exists s v,
      Reference.evaluateConstant s (ConstantInt (mkAPInt 64 7)) = OK v /\
      globalEnv s !! inr 3 = None.
Proof.
  destruct (Reference.initializeProgram Samples.mixedModule initialInterpreter)
    as [st'| |] eqn:Hrun.
  - exists st'.
    destruct (initializers_run_before_functions_are_registered
                Reference.getTypeAllocSize Reference.evaluateConstant
                Samples.mixedModule initialInterpreter st'
                [] Samples.globalB [] (ConstantInt (mkAPInt 64 7))
                Hrun eq_refl eq_refl)
      as (s & v & Hv & Hfun & _).
    split; [reflexivity|]. split.
    + assert (H : (fun st => globalEnv st !! inr 3)
                    <$> Reference.initializeProgram Samples.mixedModule
                          initialInterpreter
                  = OK (Some 8)) by (vm_compute; reflexivity).
      rewrite Hrun in H. injection H as H. exact H.
    + exists s, v. split; [exact Hv|]. rewrite Hfun. reflexivity.
  - exfalso. vm_compute in Hrun. discriminate.
  - exfalso. vm_compute in Hrun. discriminate.
Defined.

(** A global initialised with the address of a function cannot be
    initialised on a first call: the function is not bound yet. *)
Example function_address_initializer_is_fatal :
  Reference.initializeProgram Samples.fnPtrModule initialInterpreter
  = Fatal CollaboratorFailure.
Proof. vm_compute. reflexivity. Qed.
